(** * FCF-to-price dataset builder: a model of [build_fcf_dataset.py] and
    [build_fcf_dataset_simfin.py]

    The two scripts are one pipeline with two column schemas.  Tables are
    lists of row records in frame order; float64 cells are IEEE-754 binary64
    values (the Standard Library's [spec_float] with precision 53 and
    exponent bound 1024), so that NaN, the infinities and signed zeros behave
    as they do in pandas; dates are day numbers. *)

From Stdlib Require Import ZArith List String Ascii Bool Lia.
From Stdlib Require Import Sorted Permutation.
From Stdlib Require Import SpecFloat.
Import ListNotations.

Local Open Scope string_scope.
Local Open Scope Z_scope.
Local Open Scope list_scope.

(* ====================================================================== *)
(** ** float64 cells *)
(* ====================================================================== *)

Module F64.

Definition t := spec_float.

Definition prec : Z := 53.
Definition emax : Z := 1024.

Definition add : t -> t -> t := SFadd prec emax.
Definition sub : t -> t -> t := SFsub prec emax.
Definition mul : t -> t -> t := SFmul prec emax.
Definition div : t -> t -> t := SFdiv prec emax.

Definition nan : t := S754_nan.
Definition pinf : t := S754_infinity false.
Definition ninf : t := S754_infinity true.

(** [pd.isna] on a float64 cell: only NaN is null (infinities are not). *)
Definition isna (x : t) : bool :=
  match x with S754_nan => true | _ => false end.

Definition is_zero (x : t) : bool :=
  match x with S754_zero _ => true | _ => false end.

(** The float64 nearest to an integer, and to a decimal [n / 10^k] written
    as a quotient (one correctly rounded division of two exact integers). *)
Definition of_Z (z : Z) : t := binary_normalize prec emax z 0 false.
Definition of_ratio (n d : Z) : t := div (of_Z n) (of_Z d).

End F64.

Definition float64 : Type := F64.t.

(* ====================================================================== *)
(** ** Dates *)
(* ====================================================================== *)

(** A date is its day number, counted from 1970-01-01. *)
Definition date := Z.

(** [pd.Timedelta(days=n)] on day numbers. *)
Definition Timedelta_days (n : Z) : Z := n.

(** [.dt.year]: the proleptic Gregorian year of a day number. *)
Definition year_of (d : date) : Z :=
  let z := d + 719468 in
  let era := z / 146097 in
  let doe := z - era * 146097 in
  let yoe := (doe - doe / 1460 + doe / 36524 - doe / 146096) / 365 in
  let y := yoe + era * 400 in
  let doy := doe - (365 * yoe + yoe / 4 - yoe / 100) in
  let mp := (5 * doy + 2) / 153 in
  let m := if mp <? 10 then mp + 3 else mp - 9 in
  if m <=? 2 then y + 1 else y.

(** The day number of a calendar date, used to write dates down. *)
Definition ymd (y m d : Z) : date :=
  let y' := if m <=? 2 then y - 1 else y in
  let era := y' / 400 in
  let yoe := y' - era * 400 in
  let doy := (153 * (if 2 <? m then m - 3 else m + 9) + 2) / 5 + d - 1 in
  let doe := yoe * 365 + yoe / 4 - yoe / 100 + doy in
  era * 146097 + doe - 719468.

(* ====================================================================== *)
(** ** Configuration *)
(* ====================================================================== *)

Definition START_YEAR : Z := 2000.
Definition MAX_RETRY : nat := 5.
Definition RETRY_DELAY : Z := 8.

Definition CAPEX_CANDS : list string :=
  [ "Change in Fixed Assets & Intangibles";
    "Purchase of PPE & Intangibles, net";
    "Capital Expenditures (Fixed Assets)";
    "Capital Expenditures" ].

(** The two scripts differ in the lags they compute and in the income
    columns they carry through. *)
Inductive schema := Basic | Extended.

Definition lags_of (s : schema) : list nat :=
  match s with
  | Basic => [4; 8]
  | Extended => [2; 4; 8; 12]
  end%nat.

(* ====================================================================== *)
(** ** The retry helper *)
(* ====================================================================== *)

(** What one call of the wrapped function does.  An [HTTPError] carries
    the response it was raised for, with its status code, unless it was
    built without one ([e.response] is then [None]). *)
Inductive outcome (A : Type) :=
| Returns (a : A)
| RaisesHTTPError (status_code : Z)
| RaisesHTTPErrorWithoutResponse
| RaisesOther (what : string).
Arguments Returns {A} a.
Arguments RaisesHTTPError {A} status_code.
Arguments RaisesHTTPErrorWithoutResponse {A}.
Arguments RaisesOther {A} what.

(** The exceptions of a run: those of the wrapped calls, and the two that
    the scripts' own code raises, [KeyError] for the CapEx column and
    [AttributeError] for an attribute read on [None]. *)
Inductive exn :=
| HTTPError (status_code : Z)
| HTTPErrorWithoutResponse
| OtherError (what : string)
| KeyError (msg : string)
| AttributeError.

(** How a Python call ends: a value, [None] by falling off the end of the
    body, or an exception. *)
Inductive result (A : Type) :=
| Value (a : A)
| ValueNone
| Raise (e : exn).
Arguments Value {A} a.
Arguments ValueNone {A}.
Arguments Raise {A} e.

(** The effects of [retry] that a caller can observe: how often the wrapped
    function was called and what was passed to [time.sleep]. *)
Record effects := { calls : nat; slept : list Z }.

Definition no_effects : effects := {| calls := 0; slept := [] |}.
Definition called (w : effects) : effects :=
  {| calls := S (calls w); slept := slept w |}.
Definition sleep (secs : Z) (w : effects) : effects :=
  {| calls := calls w; slept := slept w ++ [secs] |}.

Definition is_5xx (code : Z) : bool := (500 <=? code) && (code <? 600).

(** [for i in range(MAX_RETRY): try: return func() except HTTPError ...].
    [func k] is what the [k]-th call of the wrapped function does.  The
    test [i == MAX_RETRY - 1 or not (500 <= e.response.status_code < 600)]
    reads the status only when [i] is not the last attempt; on an
    [HTTPError] without a response that read fails with an
    [AttributeError], which leaves [retry] in place of the [HTTPError]. *)
Fixpoint retry_loop {A} (func : nat -> outcome A) (range : list nat)
    (w : effects) : result A * effects :=
  match range with
  | [] => (ValueNone, w)
  | i :: range' =>
      match func (calls w) with
      | Returns a => (Value a, called w)
      | RaisesOther what => (Raise (OtherError what), called w)
      | RaisesHTTPErrorWithoutResponse =>
          if Nat.eqb i (MAX_RETRY - 1)
          then (Raise HTTPErrorWithoutResponse, called w)
          else (Raise AttributeError, called w)
      | RaisesHTTPError code =>
          if (Nat.eqb i (MAX_RETRY - 1)) || negb (is_5xx code)
          then (Raise (HTTPError code), called w)
          else retry_loop func range'
                 (sleep (RETRY_DELAY * 2 ^ Z.of_nat i) (called w))
      end
  end.

Definition retry {A} (func : nat -> outcome A) : result A * effects :=
  retry_loop func (seq 0 MAX_RETRY) no_effects.

(* ====================================================================== *)
(** ** Input tables *)
(* ====================================================================== *)

(** A row of the quarterly cash-flow table.  The operating cash flow column
    is always there; the provider's other numeric columns, among them the
    CapEx column under whichever name it carries, are in [cf_cells]. *)
Record cf_row := {
  cf_Ticker : string;
  cf_ReportDate : date;
  cf_OCF : float64;
  cf_cells : list (string * float64)
}.

Record cf_table := {
  cf_columns : list string;
  cf_rows : list cf_row
}.

Record inc_row := {
  inc_Ticker : string;
  inc_ReportDate : date;
  inc_Shares : float64;
  inc_Revenue : float64;
  inc_NetIncome : float64
}.

Record px_row := {
  px_Ticker : string;
  px_Date : date;
  px_AdjClose : float64
}.

(** The value of a column in a row; a cell that is not there reads NaN. *)
Fixpoint cell (col : string) (cells : list (string * float64)) : float64 :=
  match cells with
  | [] => F64.nan
  | (c, v) :: cells' => if String.eqb c col then v else cell col cells'
  end.

(* ====================================================================== *)
(** ** Data-frame operations *)
(* ====================================================================== *)

(** Column-wise comparison of sort keys: the first column that differs
    decides. *)
Definition lex (c1 c2 : comparison) : comparison :=
  match c1 with Eq => c2 | _ => c1 end.

Definition leb_of (c : comparison) : bool :=
  match c with Gt => false | _ => true end.

(** A date column that may hold NaT; NaT sorts last. *)
Definition compare_opt_date (a b : option date) : comparison :=
  match a, b with
  | Some x, Some y => Z.compare x y
  | Some _, None => Lt
  | None, Some _ => Gt
  | None, None => Eq
  end.

Section Frame.

Context {A : Type}.

(** [sort_values] on several columns is a stable sort: a row is put in
    front of the first row that does not sort before it. *)
Fixpoint insert_row (cmp : A -> A -> comparison) (x : A) (l : list A)
    : list A :=
  match l with
  | [] => [x]
  | y :: l' =>
      if leb_of (cmp x y) then x :: y :: l' else y :: insert_row cmp x l'
  end.

Definition sort_values (cmp : A -> A -> comparison) (l : list A) : list A :=
  fold_right (insert_row cmp) [] l.

(** [left.merge(right, on=..., how="inner")]: every left row, in order,
    with each right row it matches, in order.  This is the order pandas
    documents (the order of the left keys is preserved).  When keys occur
    more than once in both frames the order of the matches varies with the
    pandas release (2.2 and 2.3 take a shortcut when the result has as many
    rows as the left frame); the rows themselves do not.  The scripts sort
    the merged frame on the key at once, so with unique keys the order of
    the merge is without effect; the statements below that depend on the
    order of the rows assume unique keys. *)
Definition merge_inner {B C} (on : A -> B -> bool) (mk : A -> B -> C)
    (left : list A) (right : list B) : list C :=
  flat_map (fun a => map (mk a) (filter (on a) right)) left.

(** [how="left"]: a left row without a match is kept once, with nulls in
    the right-hand columns. *)
Definition merge_left {B C} (on : A -> B -> bool) (mk : A -> option B -> C)
    (left : list A) (right : list B) : list C :=
  flat_map (fun a =>
              match filter (on a) right with
              | [] => [mk a None]
              | ms => map (fun b => mk a (Some b)) ms
              end) left.

(** The aggregation [first()] of a group-by on one column.  pandas computes
    it column by column and skips nulls ("Compute the first entry of each
    column within each group. Defaults to skipping NA elements."): the
    first value of the group that is not null, null when there is none. *)
Definition first_valid {B} (isnull : B -> bool) (null : B) (col : A -> B)
    (group : list A) : B :=
  match find (fun r => negb (isnull (col r))) group with
  | Some r => col r
  | None => null
  end.

Variable ticker : A -> string.
Variable val : A -> float64.

(** [groupby("Ticker")[col].shift(n)] at the row [r], where [seen] holds
    the rows above [r] in the frame, the nearest first: the value [n]
    rows up among the rows of the same ticker, NaN when there are fewer. *)
Definition shifted (n : nat) (seen : list A) (r : A) : float64 :=
  nth n (map val (r :: filter (fun s => String.eqb (ticker s) (ticker r)) seen))
      F64.nan.

(** [(col - col_lag) / col_lag] *)
Definition growth (x lag : float64) : float64 := F64.div (F64.sub x lag) lag.

(** Every row with its growth over each lag. *)
Fixpoint with_growth (lags : list nat) (seen : list A) (rows : list A)
    : list (A * list (nat * float64)) :=
  match rows with
  | [] => []
  | r :: rest =>
      (r, map (fun n => (n, growth (val r) (shifted n seen r))) lags)
        :: with_growth lags (r :: seen) rest
  end.

End Frame.

(* ====================================================================== *)
(** ** 1) Fundamentals *)
(* ====================================================================== *)

(** [next((c for c in CAPEX_CANDS if c in cf.columns), None)] *)
Definition capex_col (columns : list string) : option string :=
  find (fun c => existsb (String.eqb c) columns) CAPEX_CANDS.

Record fcf_row := {
  c_Ticker : string;
  c_ReportDate : date;
  c_OCF : float64;
  c_CAPEX : float64;
  c_FCF : float64
}.

(** [cf[[..., capex_col]]], the renaming, and [FCF = OCF + CAPEX]. *)
Definition compute_FCF (capex : string) (r : cf_row) : fcf_row :=
  let ocf := cf_OCF r in
  let cx := cell capex (cf_cells r) in
  {| c_Ticker := cf_Ticker r; c_ReportDate := cf_ReportDate r;
     c_OCF := ocf; c_CAPEX := cx; c_FCF := F64.add ocf cx |}.

Record inc_sel := {
  i_Ticker : string;
  i_ReportDate : date;
  i_Shares : float64;
  i_extras : list (string * float64)
}.

(** [inc[[...]]]: the extended script also keeps revenue and earnings. *)
Definition select_inc (s : schema) (r : inc_row) : inc_sel :=
  {| i_Ticker := inc_Ticker r; i_ReportDate := inc_ReportDate r;
     i_Shares := inc_Shares r;
     i_extras := match s with
                 | Basic => []
                 | Extended => [("Revenue", inc_Revenue r);
                                ("Net Income", inc_NetIncome r)]
                 end |}.

(** A row of [fund] before the growth columns. *)
Record fund_base := {
  Ticker : string;
  ReportDate : date;
  OCF : float64;
  CAPEX : float64;
  FCF : float64;
  Shares : float64;
  extras : list (string * float64);
  FCF_per_share : float64
}.

Definition same_key (t1 : string) (d1 : date) (t2 : string) (d2 : date) : bool :=
  String.eqb t1 t2 && Z.eqb d1 d2.

Definition mk_fund (c : fcf_row) (i : inc_sel) : fund_base :=
  {| Ticker := c_Ticker c; ReportDate := c_ReportDate c;
     OCF := c_OCF c; CAPEX := c_CAPEX c; FCF := c_FCF c;
     Shares := i_Shares i; extras := i_extras i;
     FCF_per_share := F64.div (c_FCF c) (i_Shares i) |}.

Definition by_Ticker_ReportDate (a b : fund_base) : comparison :=
  lex (String.compare (Ticker a) (Ticker b))
      (Z.compare (ReportDate a) (ReportDate b)).

(** The merge on [Ticker, Report Date], the start-year filter, the
    per-share column, and the sort. *)
Definition fund_sorted (s : schema) (capex : string) (cf : list cf_row)
    (inc : list inc_row) : list fund_base :=
  let cf' := map (compute_FCF capex) cf in
  let inc' := map (select_inc s) inc in
  let joined :=
    merge_inner
      (fun c i => same_key (c_Ticker c) (c_ReportDate c)
                           (i_Ticker i) (i_ReportDate i))
      mk_fund cf' inc' in
  let recent := filter (fun d => START_YEAR <=? year_of (ReportDate d)) joined in
  sort_values by_Ticker_ReportDate recent.

(** A row of [fund]. *)
Record fund_row := {
  f_base : fund_base;
  FCFps_growth : list (nat * float64)
}.

(** The frame [fund] at the end of section 1. *)
Definition fundamentals (s : schema) (capex : string) (cf : list cf_row)
    (inc : list inc_row) : list fund_row :=
  map (fun p => {| f_base := fst p; FCFps_growth := snd p |})
      (with_growth Ticker FCF_per_share (lags_of s) []
         (fund_sorted s capex cf inc)).

(* ====================================================================== *)
(** ** 2) Prices *)
(* ====================================================================== *)

(** [px] after the renaming [Date -> TradeDate], [Adj. Close -> Price] and
    the sort on [Ticker, TradeDate]. *)
Definition by_Ticker_TradeDate (a b : px_row) : comparison :=
  lex (String.compare (px_Ticker a) (px_Ticker b))
      (Z.compare (px_Date a) (px_Date b)).

Definition prices (px : list px_row) : list px_row :=
  sort_values by_Ticker_TradeDate px.

(** A row of [temp]. *)
Record temp_row := {
  t_Ticker : string;
  RptDate : date;
  t_TradeDate : option date;
  t_Price : float64
}.

Definition fund_keyed (fund : list fund_row) : list (string * date) :=
  map (fun f => (Ticker (f_base f), ReportDate (f_base f))) fund.

Definition mk_temp (k : string * date) (p : option px_row) : temp_row :=
  {| t_Ticker := fst k; RptDate := snd k;
     t_TradeDate := option_map px_Date p;
     t_Price := match p with Some r => px_AdjClose r | None => F64.nan end |}.

(** [(TradeDate >= RptDate) & (TradeDate <= RptDate + Timedelta(days=7))];
    a comparison with NaT is false. *)
Definition in_window (r : temp_row) : bool :=
  match t_TradeDate r with
  | Some d => (RptDate r <=? d) && (d <=? RptDate r + Timedelta_days 7)
  | None => false
  end.

Definition by_Ticker_RptDate_TradeDate (a b : temp_row) : comparison :=
  lex (String.compare (t_Ticker a) (t_Ticker b))
      (lex (Z.compare (RptDate a) (RptDate b))
           (compare_opt_date (t_TradeDate a) (t_TradeDate b))).

Definition candidates (keys : list (string * date)) (px : list px_row)
    : list temp_row :=
  sort_values by_Ticker_RptDate_TradeDate
    (filter in_window
       (merge_left (fun k p => String.eqb (fst k) (px_Ticker p)) mk_temp keys px)).

Definition key_eq_dec (a b : string * date) : {a = b} + {a <> b}.
Proof. decide equality; [apply Z.eq_dec | apply string_dec]. Defined.

Definition compare_key (a b : string * date) : comparison :=
  lex (String.compare (fst a) (fst b)) (Z.compare (snd a) (snd b)).

Definition isnat (d : option date) : bool :=
  match d with None => true | Some _ => false end.

(** The rows of one group of [groupby(["Ticker","RptDate"])]. *)
Definition group_of (T : string) (R : date) (rows : list temp_row)
    : list temp_row :=
  filter (fun r => same_key (t_Ticker r) (RptDate r) T R) rows.

(** [groupby(["Ticker","RptDate"], as_index=False).first()]: one row per
    key, the keys in sorted order, each other column aggregated on its
    own, so that TradeDate and Price may come from different rows of the
    group. *)
Definition groupby_first (rows : list temp_row) : list temp_row :=
  map (fun k =>
         let g := group_of (fst k) (snd k) rows in
         {| t_Ticker := fst k; RptDate := snd k;
            t_TradeDate := first_valid isnat None t_TradeDate g;
            t_Price := first_valid F64.isna F64.nan t_Price g |})
      (sort_values compare_key
         (nodup key_eq_dec (map (fun r => (t_Ticker r, RptDate r)) rows))).

Definition temp (fund : list fund_row) (px : list px_row) : list temp_row :=
  groupby_first (candidates (fund_keyed fund) (prices px)).

(** A row of [merged] before the metrics. *)
Record merged_row := {
  m_fund : fund_row;
  TradeDate : option date;
  Price : float64
}.

Definition mk_merged (f : fund_row) (t : option temp_row) : merged_row :=
  {| m_fund := f;
     TradeDate := match t with Some r => t_TradeDate r | None => None end;
     Price := match t with Some r => t_Price r | None => F64.nan end |}.

(** The left merge of [temp] onto [fund] and [dropna(subset=["Price"])]. *)
Definition merged (fund : list fund_row) (px : list px_row) : list merged_row :=
  filter (fun m => negb (F64.isna (Price m)))
    (merge_left
       (fun f t => same_key (Ticker (f_base f)) (ReportDate (f_base f))
                            (t_Ticker t) (RptDate t))
       mk_merged fund (temp fund px)).

(* ====================================================================== *)
(** ** 3) Metrics and the output table *)
(* ====================================================================== *)

(** A row of [merged] with the metrics. *)
Record metrics_row := {
  x_merged : merged_row;
  Market_Cap : float64;
  Price_growth : list (nat * float64)
}.

Definition m_Ticker (m : merged_row) : string := Ticker (f_base (m_fund m)).

Definition metrics (s : schema) (rows : list merged_row) : list metrics_row :=
  map (fun p => {| x_merged := fst p;
                   Market_Cap := F64.mul (Price (fst p))
                                         (Shares (f_base (m_fund (fst p))));
                   Price_growth := snd p |})
      (with_growth m_Ticker Price (lags_of s) [] rows).

(** A row of [final]: the selected columns.  The growth columns are listed
    by lag, the carried-through income columns by name. *)
Record final_row := {
  out_Ticker : string;
  out_ReportDate : date;
  out_Price : float64;
  out_Price_growth : list (nat * float64);
  out_Market_Cap : float64;
  out_extras : list (string * float64);
  out_FCF : float64;
  out_FCF_per_share : float64;
  out_FCFps_growth : list (nat * float64)
}.

Definition select_columns (x : metrics_row) : final_row :=
  let f := m_fund (x_merged x) in
  {| out_Ticker := Ticker (f_base f);
     out_ReportDate := ReportDate (f_base f);
     out_Price := Price (x_merged x);
     out_Price_growth := Price_growth x;
     out_Market_Cap := Market_Cap x;
     out_extras := extras (f_base f);
     out_FCF := FCF (f_base f);
     out_FCF_per_share := FCF_per_share (f_base f);
     out_FCFps_growth := FCFps_growth f |}.

(** The frame [final]. *)
Definition final (s : schema) (fund : list fund_row) (px : list px_row)
    : list final_row :=
  map select_columns (metrics s (merged fund px)).

(* ====================================================================== *)
(** ** The script *)
(* ====================================================================== *)

(** The provider's three loaders; [load k] is what its [k]-th call does. *)
Record provider := {
  load_cashflow : nat -> outcome cf_table;
  load_income : nat -> outcome (list inc_row);
  load_shareprices : nat -> outcome (list px_row)
}.

Definition and_then_effects (w1 w2 : effects) : effects :=
  {| calls := calls w1 + calls w2; slept := slept w1 ++ slept w2 |}.

(** A statement [x = retry(load, ...)] followed by the rest of the script:
    an exception ends the run; [None] in place of a table fails at its first
    use. *)
Definition load {A B} (func : nat -> outcome A)
    (rest : A -> result B * effects) : result B * effects :=
  match retry func with
  | (Value a, w) => let (r, w') := rest a in (r, and_then_effects w w')
  | (ValueNone, w) => (Raise AttributeError, w)
  | (Raise e, w) => (Raise e, w)
  end.

Notation "x <- 'retry' f ;; rest" := (load f (fun x => rest))
  (at level 61, f at next level, right associativity).

(** [raise KeyError(f"CapEx column not found. Tried {CAPEX_CANDS}")] *)
Definition the_KeyError : exn := KeyError "CapEx column not found.".

(** [capex_col = next(...)] and [if not capex_col: raise KeyError(...)]:
    [None] is falsy, and so is the empty string. *)
Definition resolve_capex (cf : cf_table) : result string :=
  match capex_col (cf_columns cf) with
  | None => Raise the_KeyError
  | Some c => if String.eqb c "" then Raise the_KeyError else Value c
  end.

(** Section 1 of the script on loaded tables. *)
Definition fund_stage (s : schema) (cf : cf_table) (inc : list inc_row)
    : result (list fund_row) :=
  match resolve_capex cf with
  | Value c => Value (fundamentals s c (cf_rows cf) inc)
  | ValueNone => ValueNone
  | Raise e => Raise e
  end.

Definition run (s : schema) (p : provider) : result (list final_row) * effects :=
  cf <- retry (load_cashflow p) ;;
  inc <- retry (load_income p) ;;
  match fund_stage s cf inc with
  | Value fund =>
      px <- retry (load_shareprices p) ;;
      (Value (final s fund px), no_effects)
  | ValueNone => (ValueNone, no_effects)
  | Raise e => (Raise e, no_effects)
  end.

(** The data part of the script, for tables already loaded. *)
Definition build (s : schema) (cf : cf_table) (inc : list inc_row)
    (px : list px_row) : result (list final_row) :=
  match fund_stage s cf inc with
  | Value fund => Value (final s fund px)
  | ValueNone => ValueNone
  | Raise e => Raise e
  end.

(* ====================================================================== *)
(** ** Notions used in the statements *)
(* ====================================================================== *)

(** What [sort_values] needs of a comparison of rows. *)
Record cmp_ok {A} (cmp : A -> A -> comparison) : Prop := {
  cmp_anti : forall a b, cmp b a = CompOpp (cmp a b);
  cmp_trans : forall o a b c, cmp a b = o -> cmp b c = o -> cmp a c = o;
  cmp_eq_l : forall a b c, cmp a b = Eq -> cmp a c = cmp b c
}.

Definition sorts_before {A} (cmp : A -> A -> comparison) (a b : A) : Prop :=
  leb_of (cmp a b) = true.

(** The waits of the first [k] failed attempts: [RETRY_DELAY * 2 ** i]. *)
Definition backoff (k : nat) : list Z :=
  map (fun i => RETRY_DELAY * 2 ^ Z.of_nat i) (seq 0 k).

(** A loader that answers 503 twice and then returns. *)
Definition flaky {A} (a : A) (k : nat) : outcome A :=
  if (k <? 2)%nat then RaisesHTTPError 503 else Returns a.

(** A loader that returns at once. *)
Definition steady {A} (a : A) (k : nat) : outcome A := Returns a.

(** The columns of a cash-flow table that has the CapEx column under its
    last name, and of one that has none. *)
Definition columns_last : list string :=
  ["Ticker"; "Report Date"; "Net Cash from Operating Activities";
   "Capital Expenditures"].

Definition columns_none : list string :=
  ["Ticker"; "Report Date"; "Net Cash from Operating Activities"].

(** A price row that qualifies for a report date of a ticker: same ticker,
    traded on the report date or within the 7 days after it. *)
Definition qualifies (T : string) (R : date) (p : px_row) : Prop :=
  px_Ticker p = T /\ R <= px_Date p <= R + Timedelta_days 7.

(** The rows of one ticker, in frame order. *)
Definition ticker_rows {A} (ticker : A -> string) (T : string) (rows : list A)
    : list A :=
  filter (fun r => String.eqb (ticker r) T) rows.

(** The trailing-lag algorithm as the specification words it, on the
    sequence of a ticker's values ordered by report date:
    [growth[t] = (value[t] - value[t-L]) / value[t-L]], where the lagged
    value of the first [L] positions is null.  The code's [with_growth] is
    compared with it below. *)
Definition lag_value (vals : list float64) (t L : nat) : float64 :=
  if (t <? L)%nat then F64.nan else nth (t - L) vals F64.nan.

Definition trailing_growth (vals : list float64) (t L : nat) : float64 :=
  growth (nth t vals F64.nan) (lag_value vals t L).

(** The cell of a growth column, by its lag. *)
Definition growth_over (L : nat) (cols : list (nat * float64)) : option float64 :=
  option_map snd (find (fun c => Nat.eqb (fst c) L) cols).

Definition is_inf (x : float64) : bool :=
  match x with S754_infinity _ => true | _ => false end.

(** The columns of a [final] row that come from the fundamentals stage, and
    the same columns of a [fund] row. *)
Definition fund_part (r : final_row)
    : string * date * float64 * float64 * list (nat * float64) :=
  (out_Ticker r, out_ReportDate r, out_FCF r, out_FCF_per_share r,
   out_FCFps_growth r).

Definition fund_part_of (f : fund_row)
    : string * date * float64 * float64 * list (nat * float64) :=
  (Ticker (f_base f), ReportDate (f_base f), FCF (f_base f),
   FCF_per_share (f_base f), FCFps_growth f).

(** The reading of the alignment contract that takes the price of the row
    at the earliest qualifying trade date. *)
Definition aligned_to_earliest (fund : list fund_row) (px : list px_row) : Prop :=
  forall m, In m (merged fund px) ->
  exists p, In p px /\
            qualifies (m_Ticker m) (ReportDate (f_base (m_fund m))) p /\
            (forall q, In q px ->
                       qualifies (m_Ticker m) (ReportDate (f_base (m_fund m))) q ->
                       px_Date p <= px_Date q) /\
            Price m = px_AdjClose p.

(** The reading of the growth contract under which a zero lagged value
    gives a null growth. *)
Definition growth_null_on_zero_lag (s : schema) (fund : list fund_row) : Prop :=
  forall T t f f' L,
    In L (lags_of s) ->
    nth_error (ticker_rows (fun f => Ticker (f_base f)) T fund) t = Some f ->
    (L <= t)%nat ->
    nth_error (ticker_rows (fun f => Ticker (f_base f)) T fund) (t - L) = Some f' ->
    F64.is_zero (FCF_per_share (f_base f')) = true ->
    growth_over L (FCFps_growth f) = Some F64.nan.

(* ====================================================================== *)
(** ** Sample tables *)
(* ====================================================================== *)

Definition cf_line (T : string) (d : date) (ocf capex : Z) : cf_row :=
  {| cf_Ticker := T; cf_ReportDate := d; cf_OCF := F64.of_Z ocf;
     cf_cells := [("Capital Expenditures", F64.of_Z capex)] |}.

Definition inc_line (T : string) (d : date) (shares : Z) : inc_row :=
  {| inc_Ticker := T; inc_ReportDate := d; inc_Shares := F64.of_Z shares;
     inc_Revenue := F64.of_Z 50; inc_NetIncome := F64.of_Z 5 |}.

Definition px_line (T : string) (d : date) (price : float64) : px_row :=
  {| px_Ticker := T; px_Date := d; px_AdjClose := price |}.

(** Five quarters of AAA, the first with a free cash flow of zero; a row
    before the start year; BBB without an income row; SPC with a price the
    day after its report date; DDD whose only price comes 11 days late; GAP
    whose first price in the window is missing. *)
Definition sample_cf : cf_table :=
  {| cf_columns := columns_last;
     cf_rows :=
       [ cf_line "GAP" (ymd 2021 1 4) 8 (-1);
         cf_line "AAA" (ymd 2021 3 31) 18 (-2);
         cf_line "AAA" (ymd 2020 3 31) 2 (-2);
         cf_line "AAA" (ymd 2020 6 30) 12 (-2);
         cf_line "AAA" (ymd 2020 9 30) 14 (-2);
         cf_line "AAA" (ymd 2020 12 31) 16 (-2);
         cf_line "AAA" (ymd 1999 12 31) 9 (-1);
         cf_line "BBB" (ymd 2020 3 31) 7 (-1);
         cf_line "SPC" (ymd 2021 1 4) 8 (-1);
         cf_line "DDD" (ymd 2021 1 4) 8 (-1) ] |}.

Definition sample_inc : list inc_row :=
  [ inc_line "AAA" (ymd 1999 12 31) 4;
    inc_line "AAA" (ymd 2020 3 31) 4;
    inc_line "AAA" (ymd 2020 6 30) 4;
    inc_line "AAA" (ymd 2020 9 30) 4;
    inc_line "AAA" (ymd 2020 12 31) 4;
    inc_line "AAA" (ymd 2021 3 31) 4;
    inc_line "CCC" (ymd 2020 3 31) 4;
    inc_line "SPC" (ymd 2021 1 4) 2;
    inc_line "DDD" (ymd 2021 1 4) 2;
    inc_line "GAP" (ymd 2021 1 4) 2 ].

Definition sample_px : list px_row :=
  [ px_line "SPC" (ymd 2021 1 15) (F64.of_Z 110);
    px_line "SPC" (ymd 2021 1 5) (F64.of_Z 100);
    px_line "DDD" (ymd 2021 1 15) (F64.of_Z 110);
    px_line "GAP" (ymd 2021 1 5) F64.nan;
    px_line "GAP" (ymd 2021 1 6) (F64.of_Z 110);
    px_line "AAA" (ymd 2020 4 1) (F64.of_Z 100);
    px_line "AAA" (ymd 2020 4 20) (F64.of_Z 999);
    px_line "AAA" (ymd 2020 6 30) (F64.of_Z 110);
    px_line "AAA" (ymd 2020 10 2) (F64.of_Z 121);
    px_line "AAA" (ymd 2020 10 1) (F64.of_Z 120);
    px_line "AAA" (ymd 2021 1 7) (F64.of_Z 130);
    px_line "AAA" (ymd 2021 4 1) (F64.of_Z 150) ].

Definition sample_fund : list fund_row :=
  fundamentals Basic "Capital Expenditures" (cf_rows sample_cf) sample_inc.

Definition sample_final : list final_row :=
  final Basic sample_fund sample_px.

(** Five quarters of free cash flow per share: 1.0, 1.1, 1.21, 1.33, 1.46. *)
Definition sample_fcfps : list float64 :=
  [ F64.of_Z 1; F64.of_ratio 11 10; F64.of_ratio 121 100;
    F64.of_ratio 133 100; F64.of_ratio 146 100 ].

(** The sample prices without the one that matches AAA's second quarter. *)
Definition sample_px_missing_quarter : list px_row :=
  filter (fun p => negb (px_Date p =? ymd 2020 6 30)) sample_px.

(* ====================================================================== *)
(** ** Further notions used in the statements *)
(* ====================================================================== *)

(** The order of [sort_values(["Ticker", "Report Date"])] on keys. *)
Definition key_before (a b : string * date) : Prop :=
  String.compare (fst a) (fst b) = Lt \/ (fst a = fst b /\ snd a <= snd b).

Definition out_key (r : final_row) : string * date :=
  (out_Ticker r, out_ReportDate r).

(** The first trade date of 2000. *)
Definition start_date : date := ymd START_YEAR 1 1.

(** A loader that answers 404, and one that cannot connect. *)
Definition refused {A} (k : nat) : outcome A := RaisesHTTPError 404.
Definition offline {A} (k : nat) : outcome A := RaisesOther "ConnectionError".

(** A loader that is down for good: 503 at every call. *)
Definition down {A} (k : nat) : outcome A := RaisesHTTPError 503.

(** The sample provider with a cash-flow loader that answers 404, and the
    one whose price loader stays down. *)
Definition provider_refused : provider :=
  {| load_cashflow := refused;
     load_income := steady sample_inc;
     load_shareprices := steady sample_px |}.

Definition provider_prices_down : provider :=
  {| load_cashflow := steady sample_cf;
     load_income := flaky sample_inc;
     load_shareprices := down |}.

(** Seconds slept in all. *)
Definition total_sleep (w : effects) : Z := fold_right Z.add 0 (slept w).

(** The keys of the three input tables. *)
Definition cf_key (r : cf_row) : string * date := (cf_Ticker r, cf_ReportDate r).
Definition inc_key (r : inc_row) : string * date := (inc_Ticker r, inc_ReportDate r).
Definition px_key (r : px_row) : string * date := (px_Ticker r, px_Date r).

Definition fund_key (f : fund_row) : string * date :=
  (Ticker (f_base f), ReportDate (f_base f)).

(** A float64 that is neither NaN nor an infinity. *)
Definition is_finite (x : float64) : bool :=
  match x with
  | S754_zero _ | S754_finite _ _ _ => true
  | _ => false
  end.

(** A value that a growth can be taken against: finite and not zero. *)
Definition usable (x : float64) : bool := is_finite x && negb (F64.is_zero x).

(** A cash-flow table cut down to the rows of one ticker. *)
Definition cf_of_ticker (T : string) (cf : cf_table) : cf_table :=
  {| cf_columns := cf_columns cf;
     cf_rows := ticker_rows cf_Ticker T (cf_rows cf) |}.

(* ====================================================================== *)
(** * Properties *)
(* ====================================================================== *)

(** ** Sort keys *)

Lemma cmp_eq_r {A} (cmp : A -> A -> comparison) (H : cmp_ok cmp) a b c :
  cmp b c = Eq -> cmp a b = cmp a c.
Proof.
  intros E.
  rewrite (cmp_anti _ H b a), (cmp_anti _ H c a).
  f_equal. now apply (cmp_eq_l _ H).
Qed.

(** A comparison that is [Eq] only on equal values is fine as soon as it is
    antisymmetric and [Lt] is transitive. *)
Lemma cmp_ok_of_eq {A} (cmp : A -> A -> comparison) :
  (forall a b, cmp a b = Eq <-> a = b) ->
  (forall a b, cmp b a = CompOpp (cmp a b)) ->
  (forall a b c, cmp a b = Lt -> cmp b c = Lt -> cmp a c = Lt) ->
  cmp_ok cmp.
Proof.
  intros Heq Hanti Hlt. split.
  - exact Hanti.
  - intros [ | | ] a b c H1 H2.
    + apply Heq in H1, H2. subst. now apply Heq.
    + eauto.
    + rewrite Hanti in H1, H2 |- *.
      destruct (cmp b a) eqn:E1; try discriminate.
      destruct (cmp c b) eqn:E2; try discriminate.
      now rewrite (Hlt _ _ _ E2 E1).
  - intros a b c H. apply Heq in H. now subst.
Qed.

Lemma ascii_compare_lt_trans a b c :
  Ascii.compare a b = Lt -> Ascii.compare b c = Lt -> Ascii.compare a c = Lt.
Proof.
  unfold Ascii.compare. rewrite !N.compare_lt_iff. apply N.lt_trans.
Qed.

Lemma ascii_compare_eq a b : Ascii.compare a b = Eq -> a = b.
Proof.
  unfold Ascii.compare. intros H. apply N.compare_eq in H.
  rewrite <- (ascii_N_embedding a), <- (ascii_N_embedding b). now f_equal.
Qed.

Lemma string_compare_lt_trans a : forall b c,
  String.compare a b = Lt -> String.compare b c = Lt -> String.compare a c = Lt.
Proof.
  induction a as [ | x a IH]; intros [ | y b] [ | z c]; simpl;
    try discriminate; auto.
  destruct (Ascii.compare x y) eqn:Exy; try discriminate;
    destruct (Ascii.compare y z) eqn:Eyz; try discriminate; intros H1 H2.
  - apply ascii_compare_eq in Exy, Eyz. subst.
    assert (Ascii.compare z z = Eq) as ->
        by (unfold Ascii.compare; apply N.compare_refl).
    eauto.
  - apply ascii_compare_eq in Exy. subst. now rewrite Eyz.
  - apply ascii_compare_eq in Eyz. subst. now rewrite Exy.
  - now rewrite (ascii_compare_lt_trans _ _ _ Exy Eyz).
Qed.

Lemma string_compare_refl s : String.compare s s = Eq.
Proof.
  induction s as [ | x s IH]; simpl; auto.
  assert (Ascii.compare x x = Eq) as ->
      by (unfold Ascii.compare; apply N.compare_refl).
  exact IH.
Qed.

Lemma string_cmp_ok : cmp_ok String.compare.
Proof.
  apply cmp_ok_of_eq.
  - intros a b. split.
    + apply String.compare_eq_iff.
    + intros ->. apply string_compare_refl.
  - intros a b. apply String.compare_antisym.
  - intros a b c. apply string_compare_lt_trans.
Qed.

Lemma Z_cmp_ok : cmp_ok Z.compare.
Proof.
  apply cmp_ok_of_eq.
  - apply Z.compare_eq_iff.
  - intros a b. apply Z.compare_antisym.
  - intros a b c. rewrite !Z.compare_lt_iff. lia.
Qed.

Lemma opt_date_cmp_ok : cmp_ok compare_opt_date.
Proof.
  apply cmp_ok_of_eq.
  - intros [a | ] [b | ]; simpl; try (split; congruence).
    rewrite Z.compare_eq_iff. split; congruence.
  - intros [a | ] [b | ]; simpl; auto using Z.compare_antisym.
  - intros [a | ] [b | ] [c | ]; simpl; try congruence.
    rewrite !Z.compare_lt_iff. lia.
Qed.

(** Comparing on a column, and then on further columns. *)
Lemma cmp_ok_lex {A K} (key : A -> K) (c1 : K -> K -> comparison)
    (c2 : A -> A -> comparison) :
  cmp_ok c1 -> cmp_ok c2 ->
  cmp_ok (fun a b => lex (c1 (key a) (key b)) (c2 a b)).
Proof.
  intros H1 H2. split.
  - intros a b. rewrite (cmp_anti _ H1), (cmp_anti _ H2).
    now destruct (c1 (key a) (key b)).
  - intros o a b c Hab Hbc.
    destruct (c1 (key a) (key b)) eqn:Eab; simpl in Hab.
    + rewrite (cmp_eq_l _ H1 _ _ _ Eab).
      destruct (c1 (key b) (key c)) eqn:Ebc; simpl in *; try congruence.
      subst o. eapply (cmp_trans _ H2); eauto.
    + destruct (c1 (key b) (key c)) eqn:Ebc; simpl in Hbc; subst o.
      * now rewrite <- (cmp_eq_r _ H1 _ _ _ Ebc), Eab.
      * now rewrite (cmp_trans _ H1 _ _ _ _ Eab Ebc).
      * discriminate.
    + destruct (c1 (key b) (key c)) eqn:Ebc; simpl in Hbc; subst o.
      * now rewrite <- (cmp_eq_r _ H1 _ _ _ Ebc), Eab.
      * discriminate.
      * now rewrite (cmp_trans _ H1 _ _ _ _ Eab Ebc).
  - intros a b c Hab.
    destruct (c1 (key a) (key b)) eqn:Eab; simpl in Hab; try discriminate.
    rewrite (cmp_eq_l _ H1 _ _ _ Eab), (cmp_eq_l _ H2 _ _ _ Hab).
    reflexivity.
Qed.

Lemma cmp_ok_on {A K} (key : A -> K) (c : K -> K -> comparison) :
  cmp_ok c -> cmp_ok (fun a b => c (key a) (key b)).
Proof.
  intros H. split; intros.
  - apply (cmp_anti _ H).
  - eapply (cmp_trans _ H); eauto.
  - now apply (cmp_eq_l _ H).
Qed.

Lemma by_Ticker_ReportDate_ok : cmp_ok by_Ticker_ReportDate.
Proof.
  apply (cmp_ok_lex Ticker String.compare
           (fun a b => Z.compare (ReportDate a) (ReportDate b))).
  - apply string_cmp_ok.
  - apply (cmp_ok_on ReportDate), Z_cmp_ok.
Qed.

Lemma by_Ticker_RptDate_TradeDate_ok : cmp_ok by_Ticker_RptDate_TradeDate.
Proof.
  apply (cmp_ok_lex t_Ticker String.compare
           (fun a b => lex (Z.compare (RptDate a) (RptDate b))
                           (compare_opt_date (t_TradeDate a) (t_TradeDate b)))).
  - apply string_cmp_ok.
  - apply (cmp_ok_lex RptDate Z.compare
             (fun a b => compare_opt_date (t_TradeDate a) (t_TradeDate b))).
    + apply Z_cmp_ok.
    + apply (cmp_ok_on t_TradeDate), opt_date_cmp_ok.
Qed.

(** ** [sort_values] *)

Section SortFacts.

Context {A : Type} (cmp : A -> A -> comparison).

Lemma insert_row_perm x l : Permutation (insert_row cmp x l) (x :: l).
Proof.
  induction l as [ | y l IH]; simpl.
  - reflexivity.
  - destruct (leb_of (cmp x y)).
    + reflexivity.
    + rewrite IH. apply perm_swap.
Qed.

Lemma sort_values_perm l : Permutation (sort_values cmp l) l.
Proof.
  induction l as [ | x l IH]; simpl.
  - reflexivity.
  - fold (sort_values cmp l). rewrite insert_row_perm. now constructor.
Qed.

Lemma sort_values_In x l : In x (sort_values cmp l) <-> In x l.
Proof.
  split; apply Permutation_in;
    [ | symmetry ]; apply sort_values_perm.
Qed.

Hypothesis Hok : cmp_ok cmp.

Lemma sorts_before_total a b : ~ sorts_before cmp a b -> sorts_before cmp b a.
Proof.
  unfold sorts_before. rewrite (cmp_anti _ Hok a b).
  destruct (cmp a b); simpl; congruence.
Qed.

Lemma sorts_before_trans a b c :
  sorts_before cmp a b -> sorts_before cmp b c -> sorts_before cmp a c.
Proof.
  unfold sorts_before. intros Hab Hbc.
  destruct (cmp a b) eqn:Eab; try discriminate.
  - now rewrite (cmp_eq_l _ Hok _ _ _ Eab).
  - destruct (cmp b c) eqn:Ebc; try discriminate.
    + now rewrite <- (cmp_eq_r _ Hok _ _ _ Ebc), Eab.
    + now rewrite (cmp_trans _ Hok _ _ _ _ Eab Ebc).
Qed.

Lemma insert_row_sorted x l :
  StronglySorted (sorts_before cmp) l ->
  StronglySorted (sorts_before cmp) (insert_row cmp x l).
Proof.
  induction 1 as [ | y l Hl IH Hy]; simpl.
  - repeat constructor.
  - destruct (leb_of (cmp x y)) eqn:E.
    + constructor.
      * now constructor.
      * constructor; [exact E | ].
        eapply Forall_impl; [ | exact Hy].
        intros z Hz. now apply (sorts_before_trans x y z).
    + constructor; [exact IH | ].
      rewrite Forall_forall. intros z Hz.
      apply (Permutation_in _ (insert_row_perm x l)) in Hz.
      destruct Hz as [<- | Hz].
      * apply sorts_before_total. unfold sorts_before. congruence.
      * rewrite Forall_forall in Hy. now apply Hy.
Qed.

Lemma sort_values_sorted l :
  StronglySorted (sorts_before cmp) (sort_values cmp l).
Proof.
  induction l as [ | x l IH]; simpl.
  - constructor.
  - now apply insert_row_sorted.
Qed.

End SortFacts.

Lemma StronglySorted_filter {A} (R : A -> A -> Prop) (f : A -> bool) l :
  StronglySorted R l -> StronglySorted R (filter f l).
Proof.
  induction 1 as [ | x l Hl IH Hx]; simpl.
  - constructor.
  - destruct (f x); [ | exact IH].
    constructor; [exact IH | ].
    rewrite Forall_forall in *. intros y Hy.
    apply filter_In in Hy. now apply Hx.
Qed.

Lemma StronglySorted_map {A B} (R : A -> A -> Prop) (S : B -> B -> Prop)
    (f : A -> B) l :
  (forall a b, R a b -> S (f a) (f b)) ->
  StronglySorted R l -> StronglySorted S (map f l).
Proof.
  intros HRS. induction 1 as [ | x l Hl IH Hx]; simpl; constructor.
  - exact IH.
  - rewrite Forall_forall in *. intros y Hy.
    apply in_map_iff in Hy. destruct Hy as (a & <- & Ha). auto.
Qed.

(** ** Lists *)

Lemma find_first {A} (f : A -> bool) l x :
  find f l = Some x ->
  exists pre post, l = pre ++ x :: post /\ f x = true /\
                   forall y, In y pre -> f y = false.
Proof.
  induction l as [ | a l IH]; simpl; [discriminate | ].
  destruct (f a) eqn:E.
  - intros [= <-]. exists [], l. repeat split; auto. intros y [].
  - intros H. destruct (IH H) as (pre & post & -> & Hx & Hpre).
    exists (a :: pre), post. repeat split; auto.
    intros y [<- | Hy]; auto.
Qed.

Lemma find_first_iff {A} (f : A -> bool) l x :
  find f l = Some x <->
  exists pre post, l = pre ++ x :: post /\ f x = true /\
                   forall y, In y pre -> f y = false.
Proof.
  split; [apply find_first | ].
  intros (pre & post & -> & Hx & Hpre).
  induction pre as [ | a pre IH]; simpl.
  - now rewrite Hx.
  - rewrite (Hpre a) by now left. apply IH. intros y Hy. apply Hpre. now right.
Qed.

Lemma filter_map_comm {A B} (f : A -> B) (p : B -> bool) l :
  filter p (map f l) = map f (filter (fun a => p (f a)) l).
Proof.
  induction l as [ | a l IH]; simpl; auto.
  destruct (p (f a)); simpl; now rewrite IH.
Qed.

(** ** The retry helper *)

Lemma retry_loop_5xx {A} (func : nat -> outcome A) : forall k i n w,
  calls w = i ->
  (i + k < MAX_RETRY)%nat ->
  (forall j, (i <= j < i + k)%nat ->
             exists code, func j = RaisesHTTPError code /\ is_5xx code = true) ->
  retry_loop func (seq i (k + n)) w =
  retry_loop func (seq (i + k) n)
    {| calls := i + k;
       slept := slept w ++ map (fun j => RETRY_DELAY * 2 ^ Z.of_nat j) (seq i k) |}.
Proof.
  induction k as [ | k IH]; intros i n w Hw Hlt H5.
  - simpl. rewrite Nat.add_0_r, app_nil_r. destruct w; simpl in *. now subst.
  - change (S k + n)%nat with (S (k + n)). cbn [seq retry_loop]. rewrite Hw.
    destruct (H5 i ltac:(lia)) as (code & -> & Hcode). rewrite Hcode.
    assert (Nat.eqb i (MAX_RETRY - 1) = false) as ->
        by (apply Nat.eqb_neq; unfold MAX_RETRY in *; lia).
    cbn [negb orb].
    rewrite (IH (S i) n); cbn [calls slept sleep called]; try lia.
    + rewrite <- app_assoc. cbn [seq map app]. now rewrite Nat.add_succ_r.
    + intros j Hj. apply H5. lia.
Qed.

Lemma retry_after_5xx {A} (func : nat -> outcome A) k :
  (k < MAX_RETRY)%nat ->
  (forall j, (j < k)%nat ->
             exists code, func j = RaisesHTTPError code /\ is_5xx code = true) ->
  retry func =
  retry_loop func (seq k (MAX_RETRY - k)) {| calls := k; slept := backoff k |}.
Proof.
  intros Hk H5. unfold retry.
  replace MAX_RETRY with (k + (MAX_RETRY - k))%nat at 1 by lia.
  rewrite (retry_loop_5xx func k 0%nat); auto.
  intros j Hj. apply H5. lia.
Qed.

(** [retry] never falls off the end of its loop, and calls the wrapped
    function at least once and at most [MAX_RETRY] times. *)
Lemma retry_bounded {A} (func : nat -> outcome A) :
  fst (retry func) <> ValueNone /\
  (1 <= calls (snd (retry func)) <= MAX_RETRY)%nat.
Proof.
  unfold retry, MAX_RETRY. simpl.
  repeat (match goal with
          | |- context [match func ?k with _ => _ end] => destruct (func k)
          | |- context [if ?b then _ else _] => destruct b
          end; simpl; try (split; [discriminate | lia])).
Qed.

(** C5.  [retry] calls the wrapped function until it returns, and returns
    its value; after a 5xx [HTTPError] at attempt [i] it sleeps
    [RETRY_DELAY * 2 ** i] and calls again, at most [MAX_RETRY] times in
    all, and the error of the last attempt is raised anew; an [HTTPError]
    with another status, and any other exception, ends it on the spot. *)
Theorem retry_behaviour {A} (func : nat -> outcome A) :
  (fst (retry func) <> ValueNone /\
   (1 <= calls (snd (retry func)) <= MAX_RETRY)%nat) /\
  forall k : nat,
  (k < MAX_RETRY)%nat ->
  (forall j, (j < k)%nat ->
             exists code, func j = RaisesHTTPError code /\ is_5xx code = true) ->
  let w := {| calls := S k; slept := backoff k |} in
  (forall a, func k = Returns a -> retry func = (Value a, w)) /\
  (forall code, func k = RaisesHTTPError code -> is_5xx code = false ->
                retry func = (Raise (HTTPError code), w)) /\
  (forall code, func k = RaisesHTTPError code -> k = (MAX_RETRY - 1)%nat ->
                retry func = (Raise (HTTPError code), w)) /\
  (forall what, func k = RaisesOther what ->
                retry func = (Raise (OtherError what), w)).
Proof.
  split; [apply retry_bounded | ].
  intros k Hk H5 w. rewrite (retry_after_5xx func k Hk H5).
  replace (MAX_RETRY - k)%nat with (S (MAX_RETRY - k - 1)) by lia.
  simpl seq. cbn [retry_loop calls].
  repeat split.
  - intros a ->. reflexivity.
  - intros code -> ->. now rewrite orb_true_r.
  - intros code -> ->. reflexivity.
  - intros what ->. reflexivity.
Qed.

Lemma retry_behaviour_witness :
  retry (flaky 7) = (Value 7, {| calls := 3; slept := [8; 16] |}).
Proof.
  refine (proj1 (proj2 (retry_behaviour (flaky 7)) 2%nat _ _) 7 _).
  - unfold MAX_RETRY. lia.
  - intros j Hj. exists 503. split.
    + unfold flaky. now replace (j <? 2)%nat with true
        by (symmetry; apply Nat.ltb_lt; exact Hj).
    + reflexivity.
  - reflexivity.
Defined.

(** ** The CapEx column *)

Lemma existsb_eqb_In c cols : existsb (String.eqb c) cols = true <-> In c cols.
Proof.
  rewrite existsb_exists. split.
  - intros (x & Hx & E). apply String.eqb_eq in E. now subst.
  - intros H. exists c. split; [exact H | apply String.eqb_refl].
Qed.

Lemma capex_col_first cols c :
  capex_col cols = Some c <->
  exists pre post, CAPEX_CANDS = pre ++ c :: post /\ In c cols /\
                   forall x, In x pre -> ~ In x cols.
Proof.
  unfold capex_col. rewrite find_first_iff.
  split; intros (pre & post & E & Hc & Hpre); exists pre, post;
    (split; [exact E | ]).
  - split; [now apply existsb_eqb_In | ].
    intros x Hx Hin. apply existsb_eqb_In in Hin.
    rewrite (Hpre x Hx) in Hin. discriminate.
  - split; [now apply existsb_eqb_In | ].
    intros y Hy. destruct (existsb (String.eqb y) cols) eqn:Ey; auto.
    apply existsb_eqb_In in Ey. now destruct (Hpre y Hy).
Qed.

Lemma capex_col_none cols :
  capex_col cols = None <-> forall c, In c CAPEX_CANDS -> ~ In c cols.
Proof.
  unfold capex_col. split.
  - intros H c Hc Hin. apply (find_none _ _ H) in Hc.
    apply existsb_eqb_In in Hin. congruence.
  - intros H. destruct (find _ _) as [c | ] eqn:E; auto.
    apply find_some in E. destruct E as [Hc Hin].
    apply existsb_eqb_In in Hin. now destruct (H c Hc).
Qed.

(** No candidate name is the empty string, so [not capex_col] holds only of
    [None]. *)
Lemma resolve_capex_spec cf :
  match capex_col (cf_columns cf) with
  | Some c => resolve_capex cf = Value c
  | None => resolve_capex cf = Raise the_KeyError
  end.
Proof.
  unfold resolve_capex.
  destruct (capex_col (cf_columns cf)) as [c | ] eqn:E; [ | reflexivity].
  apply find_some in E. destruct E as [Hc _].
  simpl in Hc. destruct Hc as [<- | [<- | [<- | [<- | []]]]]; reflexivity.
Qed.

(** The script once the first two loads have returned. *)
Lemma run_loaded s p cf inc w1 w2 :
  retry (load_cashflow p) = (Value cf, w1) ->
  retry (load_income p) = (Value inc, w2) ->
  run s p =
  match fund_stage s cf inc with
  | Value fund =>
      let (r, w3) := px <- retry (load_shareprices p) ;;
                     (Value (final s fund px), no_effects) in
      (r, and_then_effects w1 (and_then_effects w2 w3))
  | ValueNone => (ValueNone, and_then_effects w1 (and_then_effects w2 no_effects))
  | Raise e => (Raise e, and_then_effects w1 (and_then_effects w2 no_effects))
  end.
Proof.
  intros H1 H2. unfold run, load at 1. rewrite H1.
  unfold load at 1. rewrite H2.
  destruct (fund_stage s cf inc); try reflexivity.
  now destruct (load _ _).
Qed.

(** C6.  The CapEx column is the first name of [CAPEX_CANDS] that is a
    column of the cash-flow table; a table that has ["Capital Expenditures"]
    and none of the three names before it resolves to that name; and the
    script raises its [KeyError] exactly when no candidate is a column, in
    which case it yields no table and does not even load the prices. *)
Theorem capex_resolution (cf : cf_table) :
  (forall c, resolve_capex cf = Value c <->
             exists pre post, CAPEX_CANDS = pre ++ c :: post /\
                              In c (cf_columns cf) /\
                              forall x, In x pre -> ~ In x (cf_columns cf)) /\
  (In "Capital Expenditures" (cf_columns cf) ->
   ~ In "Change in Fixed Assets & Intangibles" (cf_columns cf) ->
   ~ In "Purchase of PPE & Intangibles, net" (cf_columns cf) ->
   ~ In "Capital Expenditures (Fixed Assets)" (cf_columns cf) ->
   resolve_capex cf = Value "Capital Expenditures") /\
  (resolve_capex cf = Raise the_KeyError <->
   forall c, In c CAPEX_CANDS -> ~ In c (cf_columns cf)) /\
  (forall s inc px,
      build s cf inc px = Raise the_KeyError <->
      forall c, In c CAPEX_CANDS -> ~ In c (cf_columns cf)) /\
  (forall s inc px,
      (exists c, In c CAPEX_CANDS /\ In c (cf_columns cf)) ->
      exists out, build s cf inc px = Value out) /\
  (forall s p inc w1 w2,
      retry (load_cashflow p) = (Value cf, w1) ->
      retry (load_income p) = (Value inc, w2) ->
      (forall c, In c CAPEX_CANDS -> ~ In c (cf_columns cf)) ->
      run s p = (Raise the_KeyError,
                 and_then_effects w1 (and_then_effects w2 no_effects))).
Proof.
  pose proof (resolve_capex_spec cf) as Hr.
  assert (Hnone : resolve_capex cf = Raise the_KeyError <->
                  forall c, In c CAPEX_CANDS -> ~ In c (cf_columns cf)).
  { rewrite <- capex_col_none.
    destruct (capex_col (cf_columns cf)); rewrite Hr; split; congruence. }
  split; [ | split; [ | split; [exact Hnone | split; [ | split]]]].
  - intros c. rewrite <- capex_col_first.
    destruct (capex_col (cf_columns cf)); rewrite Hr; split; congruence.
  - intros H4 H1 H2 H3.
    enough (capex_col (cf_columns cf) = Some "Capital Expenditures") as E
        by now rewrite E in Hr.
    apply capex_col_first.
    exists (firstn 3 CAPEX_CANDS), []. repeat split; auto.
    simpl. intros x [<- | [<- | [<- | []]]]; assumption.
  - intros s inc px. rewrite <- Hnone. unfold build, fund_stage.
    destruct (resolve_capex cf); split; congruence.
  - intros s inc px (c & Hc & Hin). unfold build, fund_stage.
    destruct (capex_col (cf_columns cf)) as [c' | ] eqn:E.
    + rewrite Hr. eauto.
    + now destruct (proj1 (capex_col_none _) E c Hc).
  - intros s p inc w1 w2 H1 H2 Hno.
    rewrite (run_loaded s p cf inc w1 w2 H1 H2).
    unfold fund_stage. apply Hnone in Hno. now rewrite Hno.
Qed.

Lemma capex_resolution_witness :
  resolve_capex {| cf_columns := columns_last; cf_rows := [] |}
  = Value "Capital Expenditures".
Proof.
  refine (proj1 (proj2 (capex_resolution
                          {| cf_columns := columns_last; cf_rows := [] |}))
                _ _ _ _); simpl.
  - tauto.
  - intros [H | [H | [H | [H | []]]]]; discriminate.
  - intros [H | [H | [H | [H | []]]]]; discriminate.
  - intros [H | [H | [H | [H | []]]]]; discriminate.
Defined.

(** ** Merges *)

Lemma same_key_true t1 d1 t2 d2 :
  same_key t1 d1 t2 d2 = true <-> t1 = t2 /\ d1 = d2.
Proof.
  unfold same_key. rewrite andb_true_iff, String.eqb_eq, Z.eqb_eq. tauto.
Qed.

Lemma in_merge_inner {A B C} (on : A -> B -> bool) (mk : A -> B -> C) l r c :
  In c (merge_inner on mk l r) <->
  exists a b, In a l /\ In b r /\ on a b = true /\ c = mk a b.
Proof.
  unfold merge_inner. rewrite in_flat_map. split.
  - intros (a & Ha & Hc). apply in_map_iff in Hc.
    destruct Hc as (b & <- & Hb). apply filter_In in Hb.
    exists a, b. tauto.
  - intros (a & b & Ha & Hb & Hon & ->). exists a. split; [exact Ha | ].
    apply in_map, filter_In. tauto.
Qed.

Lemma in_merge_left {A B C} (on : A -> B -> bool) (mk : A -> option B -> C)
    l r c :
  In c (merge_left on mk l r) <->
  exists a, In a l /\
            ((filter (on a) r = [] /\ c = mk a None) \/
             (exists b, In b r /\ on a b = true /\ c = mk a (Some b))).
Proof.
  unfold merge_left. rewrite in_flat_map.
  split; intros (a & Ha & Hc); exists a; (split; [exact Ha | ]).
  - destruct (filter (on a) r) as [ | b0 ms] eqn:E.
    + destruct Hc as [<- | []]. now left.
    + right. apply in_map_iff in Hc. destruct Hc as (b & <- & Hb).
      rewrite <- E in Hb. apply filter_In in Hb. exists b. tauto.
  - destruct Hc as [[E ->] | (b & Hb & Hon & ->)].
    + rewrite E. now left.
    + assert (Hin : In b (filter (on a) r)) by (apply filter_In; tauto).
      destruct (filter (on a) r) as [ | b0 ms]; [destruct Hin | ].
      now apply (in_map (fun b => mk a (Some b))).
Qed.

(** When no left row matches two right rows, a left merge keeps the left
    frame row for row. *)
Lemma merge_left_rowwise {A B C} (on : A -> B -> bool)
    (mk : A -> option B -> C) l r :
  (forall a, In a l -> (List.length (filter (on a) r) <= 1)%nat) ->
  merge_left on mk l r = map (fun a => mk a (hd_error (filter (on a) r))) l.
Proof.
  unfold merge_left. induction l as [ | a l IH]; intros H; [reflexivity | ].
  rewrite map_cons, <- IH by (intros; apply H; now right).
  change (flat_map ?f (a :: l)) with (f a ++ flat_map f l). cbv beta.
  specialize (H a (or_introl eq_refl)).
  destruct (filter (on a) r) as [ | b [ | b' ms]]; simpl in *;
    try reflexivity; lia.
Qed.

Lemma filter_key_unique {A K} (key : A -> K) (sel : A -> bool) (k : K) l :
  NoDup (map key l) ->
  (forall a, In a l -> sel a = true -> key a = k) ->
  (List.length (filter sel l) <= 1)%nat.
Proof.
  induction l as [ | a l IH]; simpl; intros Hnd Hk; [lia | ].
  inversion Hnd as [ | ? ? Hnotin Hnd']; subst.
  destruct (sel a) eqn:Ea; [ | apply IH; auto].
  simpl. enough (filter sel l = []) as -> by (simpl; lia).
  destruct (filter sel l) as [ | b bs] eqn:E; auto.
  assert (Hb : In b (filter sel l)) by (rewrite E; now left).
  apply filter_In in Hb. destruct Hb as [Hb Hselb].
  destruct Hnotin. rewrite (Hk a) by auto.
  rewrite <- (Hk b) by auto. now apply in_map.
Qed.

Lemma StronglySorted_split {A} (R : A -> A -> Prop) pre x post :
  StronglySorted R (pre ++ x :: post) -> forall y, In y post -> R x y.
Proof.
  induction pre as [ | a pre IH]; simpl; intros H y Hy.
  - inversion H as [ | ? ? _ Hall]; subst.
    rewrite Forall_forall in Hall. now apply Hall.
  - inversion H; subst. now apply IH.
Qed.

(** ** Price alignment *)

Lemma in_prices px p : In p (prices px) <-> In p px.
Proof. apply sort_values_In. Qed.

Lemma in_candidates keys px tr :
  In tr (candidates keys px) <->
  exists k p, In k keys /\ In p px /\ qualifies (fst k) (snd k) p /\
              tr = mk_temp k (Some p).
Proof.
  unfold candidates. rewrite sort_values_In, filter_In, in_merge_left.
  unfold qualifies. split.
  - intros [(k & Hk & [[_ ->] | (p & Hp & Hon & ->)]) Hw].
    + discriminate.
    + exists k, p. apply String.eqb_eq in Hon.
      unfold in_window in Hw. simpl in Hw.
      apply andb_true_iff in Hw. rewrite !Z.leb_le in Hw.
      repeat split; auto; try tauto.
  - intros (k & p & Hk & Hp & (HT & HR) & ->). split.
    + exists k. split; [exact Hk | right]. exists p.
      rewrite String.eqb_eq. auto.
    + unfold in_window. simpl. apply andb_true_iff.
      rewrite !Z.leb_le. tauto.
Qed.

(** Within one group of the sorted candidates the trade dates ascend. *)
Lemma group_dates_ascend keys px T R pre x post :
  group_of T R (candidates keys px) = pre ++ x :: post ->
  forall y dx dy, In y post -> t_TradeDate x = Some dx ->
                  t_TradeDate y = Some dy -> dx <= dy.
Proof.
  unfold group_of. intros E y dx dy Hy Hx Hdy.
  pose proof (sort_values_sorted by_Ticker_RptDate_TradeDate
                by_Ticker_RptDate_TradeDate_ok
                (filter in_window
                   (merge_left (fun k p => String.eqb (fst k) (px_Ticker p))
                      mk_temp keys px))) as Hs.
  apply (StronglySorted_filter _
           (fun r => same_key (t_Ticker r) (RptDate r) T R)) in Hs.
  fold (candidates keys px) in Hs. rewrite E in Hs.
  pose proof (StronglySorted_split _ _ _ _ Hs y Hy) as Hxy.
  assert (Hkx : same_key (t_Ticker x) (RptDate x) T R = true).
  { assert (Hin : In x (pre ++ x :: post)) by (apply in_elt).
    rewrite <- E in Hin. now apply filter_In in Hin. }
  assert (Hky : same_key (t_Ticker y) (RptDate y) T R = true).
  { assert (Hin : In y (pre ++ x :: post))
      by (apply in_or_app; right; now right).
    rewrite <- E in Hin. now apply filter_In in Hin. }
  apply same_key_true in Hkx, Hky.
  destruct Hkx as [HxT HxR], Hky as [HyT HyR].
  unfold sorts_before, by_Ticker_RptDate_TradeDate in Hxy.
  rewrite HxT, HxR, HyT, HyR, string_compare_refl, Z.compare_refl, Hx, Hdy
    in Hxy.
  simpl in Hxy. unfold date in *.
  destruct (Z.compare_spec dx dy); try discriminate; lia.
Qed.

Lemma in_group_of T R rows r :
  In r (group_of T R rows) <-> In r rows /\ t_Ticker r = T /\ RptDate r = R.
Proof. unfold group_of. now rewrite filter_In, same_key_true. Qed.

Lemma groupby_first_keys rows :
  NoDup (map (fun r => (t_Ticker r, RptDate r)) (groupby_first rows)).
Proof.
  unfold groupby_first. rewrite map_map. simpl.
  rewrite (map_ext _ (fun k => k)) by (now intros [T R]). rewrite map_id.
  eapply Permutation_NoDup.
  - symmetry. apply sort_values_perm.
  - apply NoDup_nodup.
Qed.

Lemma in_groupby_first rows tr :
  In tr (groupby_first rows) ->
  group_of (t_Ticker tr) (RptDate tr) rows <> [] /\
  t_TradeDate tr =
    first_valid isnat None t_TradeDate (group_of (t_Ticker tr) (RptDate tr) rows) /\
  t_Price tr =
    first_valid F64.isna F64.nan t_Price (group_of (t_Ticker tr) (RptDate tr) rows).
Proof.
  unfold groupby_first. rewrite in_map_iff. intros ([T R] & <- & Hk).
  apply sort_values_In, nodup_In, in_map_iff in Hk.
  destruct Hk as (r0 & [= <- <-] & Hr0). simpl. repeat split.
  assert (Hin : In r0 (group_of (t_Ticker r0) (RptDate r0) rows))
    by (apply in_group_of; auto).
  intros E. now rewrite E in Hin.
Qed.

(** What [temp] holds for a key: the earliest qualifying trade date, and
    the first price that is not null among the qualifying rows taken by
    ascending trade date. *)
Lemma temp_row_spec fund px tr :
  In tr (temp fund px) ->
  In (t_Ticker tr, RptDate tr) (fund_keyed fund) /\
  (exists p0, In p0 px /\ qualifies (t_Ticker tr) (RptDate tr) p0 /\
              t_TradeDate tr = Some (px_Date p0) /\
              forall q, In q px -> qualifies (t_Ticker tr) (RptDate tr) q ->
                        px_Date p0 <= px_Date q) /\
  (F64.isna (t_Price tr) = false ->
   exists p, In p px /\ qualifies (t_Ticker tr) (RptDate tr) p /\
             t_Price tr = px_AdjClose p /\
             forall q, In q px -> qualifies (t_Ticker tr) (RptDate tr) q ->
                       px_Date q < px_Date p -> F64.isna (px_AdjClose q) = true).
Proof.
  unfold temp. intros Htr. apply in_groupby_first in Htr.
  set (T := t_Ticker tr) in *. set (R := RptDate tr) in *.
  set (C := candidates (fund_keyed fund) (prices px)) in *.
  destruct Htr as (Hne & Hdate & Hprice).
  (* every row of the group is a qualifying price row, and conversely *)
  assert (Hrow : forall x, In x (group_of T R C) ->
                 exists p, In p px /\ qualifies T R p /\
                           t_TradeDate x = Some (px_Date p) /\
                           t_Price x = px_AdjClose p /\
                           In (T, R) (fund_keyed fund)).
  { intros x Hx. apply in_group_of in Hx. destruct Hx as (Hx & HT & HR).
    apply in_candidates in Hx. destruct Hx as ([T' R'] & p & Hk & Hp & Hq & ->).
    simpl in *. subst T' R'. exists p. rewrite in_prices in Hp. auto. }
  assert (Hin : In (T, R) (fund_keyed fund) ->
                forall q, In q px -> qualifies T R q ->
                          In (mk_temp (T, R) (Some q)) (group_of T R C)).
  { intros Hk q Hq Hqual. apply in_group_of. repeat split; auto.
    apply in_candidates. exists (T, R), q. rewrite in_prices. auto. }
  destruct (group_of T R C) as [ | x post] eqn:Eg; [now destruct Hne | ].
  destruct (Hrow x (or_introl eq_refl)) as (p0 & Hp0 & Hq0 & Hd0 & _ & Hkey).
  split; [exact Hkey | split].
  - exists p0. split; [exact Hp0 | split; [exact Hq0 | split]].
    + rewrite Hdate. unfold first_valid. simpl. now rewrite Hd0.
    + intros q Hq Hqual. destruct (Hin Hkey q Hq Hqual) as [Hx | Hpost].
      * rewrite Hx in Hd0. simpl in Hd0. injection Hd0. unfold date. lia.
      * apply (group_dates_ascend (fund_keyed fund) (prices px) T R [] x post
                 Eg _ (px_Date p0) (px_Date q) Hpost); auto.
  - intros Hnn. rewrite Hprice in Hnn |- *. unfold first_valid in Hnn |- *.
    destruct (find (fun r => negb (F64.isna (t_Price r))) (x :: post))
      as [r | ] eqn:Ef; [ | now compute in Hnn].
    apply find_first in Ef. destruct Ef as (pre & post' & Epp & Hr & Hpre).
    assert (Hr_in : In r (x :: post)) by (rewrite Epp; apply in_elt).
    destruct (Hrow r Hr_in) as (p & Hp & Hqual & Hd & Hpr & _).
    exists p. split; [exact Hp | split; [exact Hqual | split; [exact Hpr | ]]].
    intros q Hq Hqq Hlt.
    pose proof (Hin Hkey q Hq Hqq) as Hq_in. rewrite Epp in Hq_in.
    apply in_app_or in Hq_in. destruct Hq_in as [Hq_pre | [Hq_r | Hq_post]].
    + apply Hpre in Hq_pre. simpl in Hq_pre.
      now destruct (F64.isna (px_AdjClose q)).
    + rewrite Hq_r in Hd. simpl in Hd. injection Hd. unfold date in *. lia.
    + rewrite <- Eg in Epp.
      pose proof (group_dates_ascend _ _ T R pre r post' Epp _
                    (px_Date p) (px_Date q) Hq_post Hd eq_refl).
      unfold date in *. lia.
Qed.

Lemma in_merged fund px m :
  In m (merged fund px) ->
  In (m_fund m) fund /\ F64.isna (Price m) = false /\
  exists tr, In tr (temp fund px) /\
             t_Ticker tr = Ticker (f_base (m_fund m)) /\
             RptDate tr = ReportDate (f_base (m_fund m)) /\
             TradeDate m = t_TradeDate tr /\ Price m = t_Price tr.
Proof.
  unfold merged. rewrite filter_In, in_merge_left.
  intros [(f & Hf & [[_ ->] | (tr & Htr & Hon & ->)]) Hnn].
  - discriminate.
  - simpl in *. apply same_key_true in Hon. destruct Hon as [HT HR].
    split; [exact Hf | split].
    + now destruct (F64.isna (t_Price tr)).
    + exists tr. auto.
Qed.

(** The aligned row of a fundamentals row, if there is one. *)
Lemma merged_rowwise fund px :
  exists keep, map m_fund (merged fund px) = filter keep fund.
Proof.
  set (on := fun (f : fund_row) (t : temp_row) =>
               same_key (Ticker (f_base f)) (ReportDate (f_base f))
                        (t_Ticker t) (RptDate t)).
  exists (fun f => negb (F64.isna
                           (Price (mk_merged f
                                     (hd_error (filter (on f) (temp fund px))))))).
  unfold merged. fold on.
  rewrite merge_left_rowwise.
  - rewrite filter_map_comm, map_map. simpl. now rewrite map_id.
  - intros f _.
    apply (filter_key_unique (fun r => (t_Ticker r, RptDate r)) _
             (Ticker (f_base f), ReportDate (f_base f))).
    + apply groupby_first_keys.
    + intros t _ Hon. apply same_key_true in Hon. now destruct Hon as [-> ->].
Qed.

(** ** float64 *)

Lemma growth_nan_lag x : growth x F64.nan = F64.nan.
Proof. now destruct x. Qed.

(** Division by a zero lag: no guard, IEEE semantics. *)
Lemma growth_zero_lag x lag :
  F64.is_zero lag = true ->
  growth x lag =
  match x with
  | S754_nan | S754_zero _ => F64.nan
  | S754_infinity sx | S754_finite sx _ _ =>
      S754_infinity (xorb sx (match lag with S754_zero s => s | _ => false end))
  end.
Proof.
  destruct lag as [s | | | ]; try discriminate. intros _.
  destruct x as [[ | ] | | | ]; destruct s; reflexivity.
Qed.

(** ** Trailing growth *)

Lemma growth_over_map (f : nat -> float64) lags L :
  In L lags -> growth_over L (map (fun n => (n, f n)) lags) = Some (f L).
Proof.
  unfold growth_over. induction lags as [ | n lags IH]; simpl; [tauto | ].
  intros H. destruct (Nat.eqb n L) eqn:E.
  - apply Nat.eqb_eq in E. now subst.
  - destruct H as [-> | H]; [ | now apply IH].
    now rewrite Nat.eqb_refl in E.
Qed.

Lemma nth_rev_firstn (vals : list float64) t n :
  (t < List.length vals)%nat ->
  nth n (rev (firstn (S t) vals)) F64.nan = lag_value vals t n.
Proof.
  intros Ht. unfold lag_value.
  assert (Hlen : List.length (firstn (S t) vals) = S t)
    by (rewrite length_firstn; lia).
  destruct (Nat.ltb_spec t n) as [Hlt | Hle].
  - apply nth_overflow. rewrite length_rev, Hlen. lia.
  - rewrite rev_nth by (rewrite Hlen; lia).
    rewrite Hlen, nth_firstn.
    replace (S t - S n)%nat with (t - n)%nat by lia.
    now replace (t - n <? S t)%nat with true
      by (symmetry; apply Nat.ltb_lt; lia).
Qed.

Section GrowthFacts.

Context {A : Type} (ticker : A -> string) (val : A -> float64).
Variable lags : list nat.
Variable T : string.

Lemma with_growth_rows seen rows :
  map fst (with_growth ticker val lags seen rows) = rows.
Proof.
  revert seen. induction rows as [ | r rows IH]; intros seen; simpl.
  - reflexivity.
  - now rewrite IH.
Qed.

Lemma with_growth_ticker_rows seen rows :
  map fst (ticker_rows (fun p => ticker (fst p)) T
             (with_growth ticker val lags seen rows))
  = ticker_rows ticker T rows.
Proof.
  unfold ticker_rows.
  rewrite <- (with_growth_rows seen rows) at 2.
  now rewrite filter_map_comm.
Qed.

Lemma with_growth_nth : forall rows seen t r g,
  nth_error (ticker_rows (fun p => ticker (fst p)) T
               (with_growth ticker val lags seen rows)) t = Some (r, g) ->
  g = map (fun n =>
             (n, growth (val r)
                   (nth n (map val (rev (firstn (S t) (ticker_rows ticker T rows))
                                    ++ ticker_rows ticker T seen))
                        F64.nan)))
          lags.
Proof.
  unfold ticker_rows.
  induction rows as [ | x rows IH]; intros seen t r g; simpl.
  - now destruct t.
  - destruct (String.eqb (ticker x) T) eqn:Ex.
    + destruct t as [ | t]; simpl.
      * intros [= <- <-]. apply map_ext. intros n. unfold shifted.
        apply String.eqb_eq in Ex. now rewrite Ex.
      * intros H. apply IH in H. rewrite H. apply map_ext. intros n.
        simpl filter. rewrite Ex.
        change (rev (x :: ?l)) with (rev l ++ [x]).
        now rewrite <- app_assoc.
    + intros H. apply IH in H. rewrite H. simpl filter. now rewrite Ex.
Qed.

(** The growth column of [with_growth] is the trailing-lag algorithm on
    the ticker's sequence of values. *)
Lemma with_growth_trailing rows t r g :
  nth_error (ticker_rows (fun p => ticker (fst p)) T
               (with_growth ticker val lags [] rows)) t = Some (r, g) ->
  nth_error (ticker_rows ticker T rows) t = Some r /\
  g = map (fun L => (L, trailing_growth
                          (map val (ticker_rows ticker T rows)) t L)) lags.
Proof.
  intros H.
  assert (Hr : nth_error (ticker_rows ticker T rows) t = Some r).
  { rewrite <- (with_growth_ticker_rows [] rows), nth_error_map, H.
    reflexivity. }
  split; [exact Hr | ].
  rewrite (with_growth_nth _ _ _ _ _ H). apply map_ext. intros n.
  unfold trailing_growth. simpl ticker_rows. rewrite app_nil_r.
  assert (Ht : (t < List.length (ticker_rows ticker T rows))%nat)
    by (apply nth_error_Some; congruence).
  rewrite map_rev, <- firstn_map, nth_rev_firstn
    by (now rewrite length_map).
  f_equal. symmetry.
  rewrite (nth_error_nth _ _ F64.nan (x := val r)); auto.
  now rewrite nth_error_map, Hr.
Qed.

End GrowthFacts.

(** ** The fundamentals stage *)

Lemma in_fund_sorted s capex cf inc b :
  In b (fund_sorted s capex cf inc) <->
  exists cr ir, In cr cf /\ In ir inc /\
                cf_Ticker cr = inc_Ticker ir /\
                cf_ReportDate cr = inc_ReportDate ir /\
                START_YEAR <= year_of (cf_ReportDate cr) /\
                b = mk_fund (compute_FCF capex cr) (select_inc s ir).
Proof.
  unfold fund_sorted. rewrite sort_values_In, filter_In, in_merge_inner.
  split.
  - intros [(c & i & Hc & Hi & Hon & ->) Hy].
    apply in_map_iff in Hc, Hi.
    destruct Hc as (cr & <- & Hcr), Hi as (ir & <- & Hir).
    apply same_key_true in Hon. simpl in *. apply Z.leb_le in Hy.
    exists cr, ir. tauto.
  - intros (cr & ir & Hcr & Hir & HT & HR & Hy & ->). split.
    + exists (compute_FCF capex cr), (select_inc s ir).
      repeat split; try now apply in_map.
      apply same_key_true. auto.
    + simpl. now apply Z.leb_le.
Qed.

Lemma fundamentals_rows s capex cf inc :
  map f_base (fundamentals s capex cf inc) = fund_sorted s capex cf inc.
Proof.
  unfold fundamentals. rewrite map_map. simpl. apply with_growth_rows.
Qed.

Lemma in_fundamentals s capex cf inc f :
  In f (fundamentals s capex cf inc) ->
  exists cr ir, In cr cf /\ In ir inc /\
                cf_Ticker cr = inc_Ticker ir /\
                cf_ReportDate cr = inc_ReportDate ir /\
                START_YEAR <= year_of (cf_ReportDate cr) /\
                f_base f = mk_fund (compute_FCF capex cr) (select_inc s ir).
Proof.
  intros H. apply in_fund_sorted. rewrite <- fundamentals_rows.
  now apply in_map.
Qed.

(** C9.  A row of [fund] has its [(Ticker, Report Date)] in the cash-flow
    table and in the income table: the merge is an inner one, so a key that
    one of the two tables lacks gives no row, without any error, and the
    growth columns are computed on the rows of the join only. *)
Theorem fundamentals_inner_join (s : schema) (capex : string)
    (cf : list cf_row) (inc : list inc_row) :
  (forall f, In f (fundamentals s capex cf inc) ->
     (exists cr, In cr cf /\ cf_Ticker cr = Ticker (f_base f) /\
                 cf_ReportDate cr = ReportDate (f_base f)) /\
     (exists ir, In ir inc /\ inc_Ticker ir = Ticker (f_base f) /\
                 inc_ReportDate ir = ReportDate (f_base f))) /\
  (forall T R,
     (forall cr, In cr cf -> ~ (cf_Ticker cr = T /\ cf_ReportDate cr = R)) \/
     (forall ir, In ir inc -> ~ (inc_Ticker ir = T /\ inc_ReportDate ir = R)) ->
     forall f, In f (fundamentals s capex cf inc) ->
               ~ (Ticker (f_base f) = T /\ ReportDate (f_base f) = R)) /\
  map f_base (fundamentals s capex cf inc) = fund_sorted s capex cf inc.
Proof.
  assert (H : forall f, In f (fundamentals s capex cf inc) ->
     (exists cr, In cr cf /\ cf_Ticker cr = Ticker (f_base f) /\
                 cf_ReportDate cr = ReportDate (f_base f)) /\
     (exists ir, In ir inc /\ inc_Ticker ir = Ticker (f_base f) /\
                 inc_ReportDate ir = ReportDate (f_base f))).
  { intros f Hf. apply in_fundamentals in Hf.
    destruct Hf as (cr & ir & Hcr & Hir & HT & HR & _ & ->). simpl.
    split; [exists cr | exists ir]; auto. }
  split; [exact H | split; [ | apply fundamentals_rows]].
  intros T R Hmiss f Hf [HT HR].
  destruct (H f Hf) as [(cr & Hcr & HcT & HcR) (ir & Hir & HiT & HiR)].
  destruct Hmiss as [Hno | Hno].
  - apply (Hno cr Hcr). split; congruence.
  - apply (Hno ir Hir). split; congruence.
Qed.

(** ** The output table *)

Lemma in_final_of s fund px r :
  In r (final s fund px) ->
  exists m, In m (merged fund px) /\
            fund_part r = fund_part_of (m_fund m) /\
            out_extras r = extras (f_base (m_fund m)) /\
            out_Price r = Price m /\
            out_Market_Cap r = F64.mul (Price m) (Shares (f_base (m_fund m))).
Proof.
  unfold final, metrics. rewrite map_map, in_map_iff.
  intros ([m g] & <- & Hp). exists m. split; [ | now repeat split].
  rewrite <- (with_growth_rows m_Ticker Price (lags_of s) [] (merged fund px)).
  now apply (in_map fst) in Hp.
Qed.

Lemma final_fund_part s fund px :
  map fund_part (final s fund px) = map fund_part_of (map m_fund (merged fund px)).
Proof.
  unfold final, metrics. rewrite !map_map.
  rewrite <- (with_growth_rows m_Ticker Price (lags_of s) [] (merged fund px))
    at 2.
  rewrite map_map. reflexivity.
Qed.

(** C10.  The merge of the aligned prices and the selection of the output
    columns leave the fundamentals columns as the fundamentals stage
    computed them: the output rows are rows of [fund], in their order and
    none twice, each with its Ticker, Report Date, FCF, FCF_per_share and
    FCF-per-share growths unchanged; the merge only adds TradeDate and
    Price. *)
Theorem alignment_preserves_fundamentals (s : schema) (fund : list fund_row)
    (px : list px_row) :
  (exists keep, map m_fund (merged fund px) = filter keep fund) /\
  (exists keep,
      map fund_part (final s fund px) = map fund_part_of (filter keep fund)) /\
  (forall r, In r (final s fund px) ->
     exists f, In f fund /\
               out_Ticker r = Ticker (f_base f) /\
               out_ReportDate r = ReportDate (f_base f) /\
               out_FCF r = FCF (f_base f) /\
               out_FCF_per_share r = FCF_per_share (f_base f) /\
               out_FCFps_growth r = FCFps_growth f).
Proof.
  destruct (merged_rowwise fund px) as (keep & Hkeep).
  split; [now exists keep | split].
  - exists keep. now rewrite final_fund_part, Hkeep.
  - intros r Hr. apply in_final_of in Hr.
    destruct Hr as (m & Hm & Hpart & _). apply in_merged in Hm.
    exists (m_fund m). split; [tauto | ].
    unfold fund_part, fund_part_of in Hpart.
    injection Hpart as -> -> -> -> ->. auto.
Qed.

(** C7.  In every output row Market_Cap is the float64 product of the
    row's aligned Price and the Shares (Basic) of its income row. *)
Theorem market_cap_is_price_times_shares (s : schema) (cf : cf_table)
    (inc : list inc_row) (px : list px_row) (out : list final_row)
    (r : final_row) :
  build s cf inc px = Value out ->
  In r out ->
  exists ir, In ir inc /\
             inc_Ticker ir = out_Ticker r /\
             inc_ReportDate ir = out_ReportDate r /\
             out_Market_Cap r = F64.mul (out_Price r) (inc_Shares ir).
Proof.
  unfold build, fund_stage.
  destruct (resolve_capex cf) as [c | | e]; try discriminate.
  intros [= <-] Hr. apply in_final_of in Hr.
  destruct Hr as (m & Hm & Hpart & _ & HP & HM).
  apply in_merged in Hm. destruct Hm as (Hf & _).
  apply in_fundamentals in Hf.
  destruct Hf as (cr & ir & _ & Hir & HT & HR & _ & Hb).
  unfold fund_part, fund_part_of in Hpart.
  injection Hpart as HrT HrR _ _ _.
  exists ir. rewrite HrT, HrR, HM, HP, Hb. simpl. auto.
Qed.

(** C4.  A fundamentals record without a trade date of its ticker in
    [[ReportDate, ReportDate + 7 days]] has no row in the output, and every
    output row has a Price that is not null, with the TradeDate of its
    merged row in that window. *)
Theorem price_match_invariant (s : schema) (fund : list fund_row)
    (px : list px_row) :
  (forall f, In f fund ->
     (forall p, In p px ->
                ~ qualifies (Ticker (f_base f)) (ReportDate (f_base f)) p) ->
     forall r, In r (final s fund px) ->
               ~ (out_Ticker r = Ticker (f_base f) /\
                  out_ReportDate r = ReportDate (f_base f))) /\
  (forall r, In r (final s fund px) ->
     F64.isna (out_Price r) = false /\
     exists m d, In m (merged fund px) /\
                 fund_part r = fund_part_of (m_fund m) /\
                 out_Price r = Price m /\
                 TradeDate m = Some d /\
                 out_ReportDate r <= d <= out_ReportDate r + Timedelta_days 7).
Proof.
  assert (H : forall r, In r (final s fund px) ->
     F64.isna (out_Price r) = false /\
     exists m d, In m (merged fund px) /\
                 fund_part r = fund_part_of (m_fund m) /\
                 out_Price r = Price m /\
                 TradeDate m = Some d /\
                 out_ReportDate r <= d <= out_ReportDate r + Timedelta_days 7 /\
                 exists p, In p px /\
                           qualifies (out_Ticker r) (out_ReportDate r) p).
  { intros r Hr. apply in_final_of in Hr.
    destruct Hr as (m & Hm & Hpart & _ & HP & _).
    destruct (in_merged _ _ _ Hm) as (_ & Hnn & tr & Htr & HT & HR & Hd & _).
    apply temp_row_spec in Htr.
    destruct Htr as (_ & (p0 & Hp0 & Hq0 & Hd0 & _) & _).
    pose proof Hpart as Hkey. unfold fund_part, fund_part_of in Hkey.
    injection Hkey as HrT HrR _ _ _.
    rewrite HT, <- HrT, HR, <- HrR in Hq0.
    split; [now rewrite HP | ].
    exists m, (px_Date p0). repeat split; auto.
    - congruence.
    - apply Hq0.
    - apply Hq0.
    - exists p0. auto. }
  split.
  - intros f Hf Hno r Hr [HT HR].
    destruct (H r Hr) as (_ & m & d & _ & _ & _ & _ & _ & p & Hp & Hq).
    rewrite HT, HR in Hq. exact (Hno p Hp Hq).
  - intros r Hr. destruct (H r Hr) as (Hnn & m & d & Hm & ? & ? & ? & ? & _).
    split; [exact Hnn | ]. exists m, d. auto.
Qed.

(** C1, as the code has it.  The aligned TradeDate of a retained record is
    the earliest trade date of its ticker that is on or after the report
    date and at most 7 days after it.  The aligned Price is the first price
    that is not null among the ticker's rows in that window, taken by
    ascending trade date: every qualifying row traded before it has a null
    price.  It is the price of a row at the earliest qualifying trade date
    whenever the rows at that date have a price. *)
Theorem aligned_price (fund : list fund_row) (px : list px_row)
    (m : merged_row) :
  In m (merged fund px) ->
  let T := m_Ticker m in
  let R := ReportDate (f_base (m_fund m)) in
  (exists p0, In p0 px /\ qualifies T R p0 /\
              TradeDate m = Some (px_Date p0) /\
              forall q, In q px -> qualifies T R q -> px_Date p0 <= px_Date q) /\
  (exists p, In p px /\ qualifies T R p /\
             Price m = px_AdjClose p /\ F64.isna (Price m) = false /\
             forall q, In q px -> qualifies T R q -> px_Date q < px_Date p ->
                       F64.isna (px_AdjClose q) = true) /\
  ((forall q, In q px -> qualifies T R q -> TradeDate m = Some (px_Date q) ->
              F64.isna (px_AdjClose q) = false) ->
   exists p, In p px /\ qualifies T R p /\
             (forall q, In q px -> qualifies T R q -> px_Date p <= px_Date q) /\
             TradeDate m = Some (px_Date p) /\
             Price m = px_AdjClose p).
Proof.
  intros Hm T R.
  destruct (in_merged _ _ _ Hm) as (_ & Hnn & tr & Htr & HT & HR & Hd & HP).
  apply temp_row_spec in Htr. rewrite HT, HR, <- Hd, <- HP in Htr.
  fold (m_Ticker m) in Htr. fold T R in Htr.
  destruct Htr as (_ & (p0 & Hp0 & Hq0 & Hd0 & Hmin) & Hprice).
  destruct (Hprice Hnn) as (p & Hp & Hq & Hpp & Hbefore).
  split; [ | split].
  - exists p0. auto.
  - exists p. auto 6.
  - intros Hvalid. exists p.
    assert (Hsame : px_Date p = px_Date p0).
    { destruct (Z.eq_dec (px_Date p) (px_Date p0)) as [E | Hne]; [exact E | ].
      pose proof (Hmin p Hp Hq) as Hle.
      assert (Hlt : px_Date p0 < px_Date p) by (unfold date in *; lia).
      specialize (Hvalid p0 Hp0 Hq0 Hd0).
      rewrite (Hbefore p0 Hp0 Hq0 Hlt) in Hvalid. discriminate. }
    repeat split; try apply Hq; auto.
    + intros q Hq' Hqual. rewrite Hsame. now apply Hmin.
    + now rewrite Hsame.
Qed.

(** Conversely, a fundamentals record with a qualifying price that is not
    null is retained, whatever its growth columns hold. *)
Lemma in_groupby_first_key rows r0 :
  In r0 rows ->
  exists tr, In tr (groupby_first rows) /\
             t_Ticker tr = t_Ticker r0 /\ RptDate tr = RptDate r0.
Proof.
  intros H0. unfold groupby_first.
  eexists. split.
  - apply in_map_iff. exists (t_Ticker r0, RptDate r0). split; [reflexivity | ].
    apply sort_values_In, nodup_In, in_map_iff. eauto.
  - simpl. auto.
Qed.

Lemma priced_record_is_retained s fund px f p :
  In f fund -> In p px ->
  qualifies (Ticker (f_base f)) (ReportDate (f_base f)) p ->
  F64.isna (px_AdjClose p) = false ->
  exists r, In r (final s fund px) /\ fund_part r = fund_part_of f.
Proof.
  intros Hf Hp Hq Hnn.
  set (T := Ticker (f_base f)) in *. set (R := ReportDate (f_base f)) in *.
  set (C := candidates (fund_keyed fund) (prices px)).
  assert (Hc : In (mk_temp (T, R) (Some p)) C).
  { apply in_candidates. exists (T, R), p. rewrite in_prices.
    repeat split; auto; try apply Hq.
    unfold fund_keyed. apply in_map_iff. exists f. auto. }
  destruct (in_groupby_first_key C _ Hc) as (tr & Htr & HT & HR).
  simpl in HT, HR.
  destruct (in_groupby_first C tr Htr) as (_ & _ & HP).
  rewrite HT, HR in HP.
  assert (Hprice : F64.isna (t_Price tr) = false).
  { rewrite HP. unfold first_valid.
    destruct (find _ _) as [r | ] eqn:Ef.
    - apply find_some in Ef. destruct Ef as [_ Ef].
      now destruct (F64.isna (t_Price r)).
    - assert (Hg : In (mk_temp (T, R) (Some p)) (group_of T R C))
        by (apply in_group_of; auto).
      apply (find_none _ _ Ef) in Hg. simpl in Hg.
      rewrite Hnn in Hg. discriminate. }
  assert (Hm : In (mk_merged f (Some tr)) (merged fund px)).
  { unfold merged. apply filter_In. split.
    - apply in_merge_left. exists f. split; [exact Hf | right].
      exists tr. split; [exact Htr | split; [ | reflexivity]].
      apply same_key_true. auto.
    - simpl. now rewrite Hprice. }
  assert (Hin : In (fund_part_of f) (map fund_part (final s fund px))).
  { rewrite final_fund_part.
    apply (in_map m_fund), (in_map fund_part_of) in Hm. exact Hm. }
  apply in_map_iff in Hin. destruct Hin as (r & Hr & Hin). eauto.
Qed.

(** ** Order of a ticker's rows *)

Lemma StronglySorted_map_inv {A B} (R : B -> B -> Prop) (f : A -> B) l :
  StronglySorted R (map f l) -> StronglySorted (fun a b => R (f a) (f b)) l.
Proof.
  induction l as [ | x l IH]; simpl; intros H; constructor;
    inversion H as [ | ? ? Hl Hx]; subst.
  - now apply IH.
  - rewrite Forall_forall in *. intros y Hy. apply Hx. now apply in_map.
Qed.

Lemma StronglySorted_before {A} (R : A -> A -> Prop) pre x post :
  StronglySorted R (pre ++ x :: post) -> forall y, In y pre -> R y x.
Proof.
  induction pre as [ | a pre IH]; simpl; intros H y Hy; [destruct Hy | ].
  inversion H as [ | ? ? Hl Ha]; subst. destruct Hy as [<- | Hy].
  - rewrite Forall_forall in Ha. apply Ha, in_elt.
  - now apply IH.
Qed.

(** In a frame sorted on [Ticker, date] the rows of one ticker have
    ascending dates. *)
Lemma ticker_dates_ascend {A} (tk : A -> string) (dt : A -> date) T l :
  StronglySorted
    (fun a b => leb_of (lex (String.compare (tk a) (tk b))
                            (Z.compare (dt a) (dt b))) = true) l ->
  StronglySorted (fun a b => dt a <= dt b) (ticker_rows tk T l).
Proof.
  unfold ticker_rows. induction 1 as [ | x l Hl IH Hx]; simpl.
  - constructor.
  - destruct (String.eqb (tk x) T) eqn:Ex; [ | exact IH].
    constructor; [exact IH | ].
    rewrite Forall_forall in *. intros y Hy. apply filter_In in Hy.
    destruct Hy as [Hy Ey]. specialize (Hx y Hy).
    apply String.eqb_eq in Ex, Ey.
    rewrite Ex, Ey, string_compare_refl in Hx. simpl in Hx.
    unfold date in *. destruct (Z.compare_spec (dt x) (dt y));
      try discriminate; lia.
Qed.

Lemma sorted_prefix_count {A} (dt : A -> date) l t r :
  StronglySorted (fun a b => dt a <= dt b) l ->
  nth_error l t = Some r ->
  (t < List.length (filter (fun a => (dt a <=? dt r)%Z) l))%nat.
Proof.
  intros Hs Ht. apply nth_error_split in Ht.
  destruct Ht as (pre & post & -> & <-).
  rewrite filter_app, length_app. simpl. rewrite Z.leb_refl. simpl.
  enough (filter (fun a => dt a <=? dt r) pre = pre) as -> by lia.
  apply forallb_filter_id, forallb_forall. intros y Hy.
  apply Z.leb_le. now apply (StronglySorted_before _ _ _ _ Hs).
Qed.

Lemma filter_sub_length {A} (p q k : A -> bool) l :
  (List.length (filter p (filter q (filter k l)))
   <= List.length (filter p (filter q l)))%nat.
Proof.
  induction l as [ | x l IH]; simpl; [lia | ].
  destruct (k x) eqn:Ek, (q x) eqn:Eq, (p x) eqn:Ep; simpl;
    rewrite ?Eq; simpl; rewrite ?Ep; simpl; lia.
Qed.

Lemma fund_sorted_by_key s capex cf inc :
  StronglySorted
    (fun a b => leb_of (lex (String.compare (Ticker (f_base a)) (Ticker (f_base b)))
                            (Z.compare (ReportDate (f_base a))
                                       (ReportDate (f_base b)))) = true)
    (fundamentals s capex cf inc).
Proof.
  apply (StronglySorted_map_inv (sorts_before by_Ticker_ReportDate) f_base).
  rewrite fundamentals_rows. apply sort_values_sorted, by_Ticker_ReportDate_ok.
Qed.

Lemma final_sorted_by_key s capex cf inc px :
  StronglySorted
    (fun a b => leb_of (lex (String.compare (out_Ticker a) (out_Ticker b))
                            (Z.compare (out_ReportDate a) (out_ReportDate b)))
                = true)
    (final s (fundamentals s capex cf inc) px).
Proof.
  set (Rt := fun x y : string * date * float64 * float64 * list (nat * float64) =>
               let '(tx, dx, _, _, _) := x in
               let '(ty, dy, _, _, _) := y in
               leb_of (lex (String.compare tx ty) (Z.compare dx dy)) = true).
  apply (StronglySorted_map_inv Rt fund_part).
  destruct (merged_rowwise (fundamentals s capex cf inc) px) as (keep & Hkeep).
  rewrite final_fund_part, Hkeep.
  apply (StronglySorted_map
           (fun a b => leb_of (lex (String.compare (Ticker (f_base a))
                                                   (Ticker (f_base b)))
                                   (Z.compare (ReportDate (f_base a))
                                              (ReportDate (f_base b)))) = true)).
  - auto.
  - apply StronglySorted_filter, fund_sorted_by_key.
Qed.

(** ** Growth columns of the two stages *)

Lemma fcfps_growth_trailing s capex cf inc T t f L :
  In L (lags_of s) ->
  nth_error (ticker_rows (fun f => Ticker (f_base f)) T
               (fundamentals s capex cf inc)) t = Some f ->
  growth_over L (FCFps_growth f) =
  Some (trailing_growth
          (map (fun f => FCF_per_share (f_base f))
               (ticker_rows (fun f => Ticker (f_base f)) T
                  (fundamentals s capex cf inc))) t L).
Proof.
  intros HL Ht. unfold fundamentals, ticker_rows in *.
  rewrite filter_map_comm in Ht |- *. cbn [f_base] in Ht |- *.
  rewrite nth_error_map in Ht.
  destruct (nth_error _ t) as [[b g] | ] eqn:E; [ | discriminate].
  injection Ht as <-. cbn [FCFps_growth].
  apply (with_growth_trailing Ticker FCF_per_share) in E.
  destruct E as [_ ->]. rewrite growth_over_map by exact HL.
  do 2 f_equal. rewrite map_map. cbn [f_base].
  rewrite <- (with_growth_ticker_rows Ticker FCF_per_share (lags_of s) T []).
  now rewrite map_map.
Qed.

Lemma price_growth_trailing_final s fund px T t r L :
  In L (lags_of s) ->
  nth_error (ticker_rows out_Ticker T (final s fund px)) t = Some r ->
  growth_over L (out_Price_growth r) =
  Some (trailing_growth
          (map out_Price (ticker_rows out_Ticker T (final s fund px))) t L).
Proof.
  intros HL Ht. unfold final, metrics, ticker_rows in *.
  rewrite map_map, filter_map_comm in Ht |- *.
  cbn [select_columns out_Ticker x_merged m_fund] in Ht |- *.
  rewrite nth_error_map in Ht.
  destruct (nth_error _ t) as [[m g] | ] eqn:E; [ | discriminate].
  injection Ht as <-. cbn [out_Price_growth select_columns Price_growth snd].
  apply (with_growth_trailing m_Ticker Price) in E.
  destruct E as [_ ->]. rewrite growth_over_map by exact HL.
  do 2 f_equal. rewrite map_map.
  cbn [out_Price select_columns x_merged fst].
  rewrite <- (with_growth_ticker_rows m_Ticker Price (lags_of s) T []).
  now rewrite map_map.
Qed.

Lemma trailing_growth_short vals t L :
  (t < L)%nat -> trailing_growth vals t L = F64.nan.
Proof.
  intros H. unfold trailing_growth, lag_value.
  replace (t <? L)%nat with true by (symmetry; now apply Nat.ltb_lt).
  apply growth_nan_lag.
Qed.

(** C2.  The rows of a ticker in the output are in ascending ReportDate
    order, and the price growth over a lag [L] of the row at position [t]
    among them is [(Price[t] - Price[t-L]) / Price[t-L]]: the same
    [trailing_growth] that gives the FCF-per-share growths of the
    fundamentals stage, applied to Price.  It is null when fewer than [L]
    rows of the ticker come before it, hence also when the ticker has fewer
    than [L] earlier report periods in the fundamentals. *)
Theorem price_growth_is_trailing_growth (s : schema) (cf : cf_table)
    (inc : list inc_row) (px : list px_row) (fund : list fund_row)
    (T : string) (t : nat) (r : final_row) (L : nat) :
  fund_stage s cf inc = Value fund ->
  In L (lags_of s) ->
  nth_error (ticker_rows out_Ticker T (final s fund px)) t = Some r ->
  let rows := ticker_rows out_Ticker T (final s fund px) in
  let periods := ticker_rows (fun f => Ticker (f_base f)) T fund in
  StronglySorted (fun a b => out_ReportDate a <= out_ReportDate b) rows /\
  growth_over L (out_Price_growth r)
    = Some (trailing_growth (map out_Price rows) t L) /\
  ((L <= t)%nat ->
   exists r', nth_error rows (t - L) = Some r' /\
              growth_over L (out_Price_growth r)
              = Some (F64.div (F64.sub (out_Price r) (out_Price r'))
                              (out_Price r'))) /\
  ((t < L)%nat -> growth_over L (out_Price_growth r) = Some F64.nan) /\
  ((List.length
      (filter (fun f => (ReportDate (f_base f) <=? out_ReportDate r)%Z) periods)
    <= L)%nat ->
   growth_over L (out_Price_growth r) = Some F64.nan) /\
  (forall t' f, nth_error periods t' = Some f ->
     growth_over L (FCFps_growth f)
     = Some (trailing_growth
               (map (fun f => FCF_per_share (f_base f)) periods) t' L)).
Proof.
  intros Hfund HL Ht rows periods. unfold fund_stage in Hfund.
  destruct (resolve_capex cf) as [c | | e]; try discriminate.
  injection Hfund as Hfund. subst rows periods. subst fund.
  set (fund := fundamentals s c (cf_rows cf) inc) in *.
  set (rows := ticker_rows out_Ticker T (final s fund px)) in *.
  set (periods := ticker_rows (fun f => Ticker (f_base f)) T fund) in *.
  pose proof (price_growth_trailing_final s fund px T t r L HL Ht) as Hg.
  fold rows in Hg.
  assert (Hsorted : StronglySorted
                      (fun a b => out_ReportDate a <= out_ReportDate b) rows).
  { apply ticker_dates_ascend. apply final_sorted_by_key. }
  assert (Hshort : (t < L)%nat ->
                   growth_over L (out_Price_growth r) = Some F64.nan).
  { intros Hlt. now rewrite Hg, trailing_growth_short. }
  split; [exact Hsorted | split; [exact Hg | split; [ | split; [exact Hshort | split]]]].
  - intros Hle.
    assert (Hlen : (t < List.length rows)%nat)
      by (apply nth_error_Some; fold rows in Ht; congruence).
    destruct (nth_error rows (t - L)) as [r' | ] eqn:Er'.
    + exists r'. split; [reflexivity | ]. rewrite Hg.
      unfold trailing_growth, lag_value, growth.
      replace (t <? L)%nat with false by (symmetry; apply Nat.ltb_ge; lia).
      rewrite (nth_error_nth _ _ F64.nan (x := out_Price r))
        by (rewrite nth_error_map; fold rows in Ht; now rewrite Ht).
      rewrite (nth_error_nth _ _ F64.nan (x := out_Price r'))
        by (now rewrite nth_error_map, Er').
      reflexivity.
    + apply nth_error_None in Er'. lia.
  - intros Hcount. apply Hshort.
    pose proof (sorted_prefix_count out_ReportDate rows t r Hsorted Ht) as Hpre.
    enough (List.length
              (filter (fun a => (out_ReportDate a <=? out_ReportDate r)%Z) rows)
            <= List.length
                 (filter (fun f => (ReportDate (f_base f) <=? out_ReportDate r)%Z)
                         periods))%nat by lia.
    clear Hpre Hcount Hshort Hsorted Hg Ht.
    destruct (merged_rowwise fund px) as (keep & Hkeep).
    pose proof (final_fund_part s fund px) as Hpart. rewrite Hkeep in Hpart.
    set (dt5 := fun x : string * date * float64 * float64 * list (nat * float64) =>
                  let '(_, d, _, _, _) := x in d).
    set (tk5 := fun x : string * date * float64 * float64 * list (nat * float64) =>
                  let '(k, _, _, _, _) := x in k).
    transitivity
      (List.length
         (filter (fun x => dt5 x <=? out_ReportDate r)
            (filter (fun x => String.eqb (tk5 x) T)
               (map fund_part (final s fund px))))).
    + rewrite !filter_map_comm, length_map. apply Nat.eq_le_incl. reflexivity.
    + rewrite Hpart, !filter_map_comm, length_map. apply filter_sub_length.
  - intros t' f Hf. now apply fcfps_growth_trailing.
Qed.

(** C3, as the code has it.  The rows of a ticker in [fund] are in
    ascending ReportDate order; the FCF-per-share growth over a lag [L] of
    the row at position [t] is null when [t < L]; from there on it is
    [(x - lag) / lag] in float64 arithmetic with no guard on the divisor, so
    for a lagged value of zero it is null only when [x] itself is zero or
    null, and is an infinity otherwise.  The growth columns drop no row, and
    the row reaches the output table whenever it has a qualifying price. *)
Theorem fcfps_growth_nulls (s : schema) (capex : string) (cf : list cf_row)
    (inc : list inc_row) (T : string) (t : nat) (f : fund_row) (L : nat) :
  In L (lags_of s) ->
  nth_error (ticker_rows (fun f => Ticker (f_base f)) T
               (fundamentals s capex cf inc)) t = Some f ->
  let rows := ticker_rows (fun f => Ticker (f_base f)) T
                (fundamentals s capex cf inc) in
  let x := FCF_per_share (f_base f) in
  StronglySorted
    (fun a b => ReportDate (f_base a) <= ReportDate (f_base b)) rows /\
  ((t < L)%nat -> growth_over L (FCFps_growth f) = Some F64.nan) /\
  (forall f', (L <= t)%nat -> nth_error rows (t - L) = Some f' ->
     let lag := FCF_per_share (f_base f') in
     growth_over L (FCFps_growth f) = Some (F64.div (F64.sub x lag) lag) /\
     (F64.is_zero lag = true ->
      F64.isna (F64.div (F64.sub x lag) lag) = F64.isna x || F64.is_zero x /\
      (F64.isna x || F64.is_zero x = false ->
       is_inf (F64.div (F64.sub x lag) lag) = true))) /\
  map f_base (fundamentals s capex cf inc) = fund_sorted s capex cf inc /\
  (forall px p,
     In p px -> qualifies (Ticker (f_base f)) (ReportDate (f_base f)) p ->
     F64.isna (px_AdjClose p) = false ->
     exists r, In r (final s (fundamentals s capex cf inc) px) /\
               fund_part r = fund_part_of f).
Proof.
  intros HL Ht rows x.
  pose proof (fcfps_growth_trailing s capex cf inc T t f L HL Ht) as Hg.
  fold rows in Hg.
  split; [ | split; [ | split; [ | split; [apply fundamentals_rows | ]]]];
    [ | | | intros px p Hp Hq Hnn;
            apply (priced_record_is_retained s _ px f p); auto;
            apply nth_error_In in Ht; unfold ticker_rows in Ht;
            now apply filter_In in Ht ].
  - apply ticker_dates_ascend, fund_sorted_by_key.
  - intros Hlt. now rewrite Hg, trailing_growth_short.
  - intros f' Hle Hf' lag. split.
    + rewrite Hg. unfold trailing_growth, lag_value, growth.
      replace (t <? L)%nat with false by (symmetry; apply Nat.ltb_ge; lia).
      rewrite (nth_error_nth _ _ F64.nan (x := x))
        by (rewrite nth_error_map; fold rows in Ht; now rewrite Ht).
      rewrite (nth_error_nth _ _ F64.nan (x := lag))
        by (now rewrite nth_error_map, Hf').
      reflexivity.
    + intros Hz. fold (growth x lag). rewrite (growth_zero_lag x lag Hz).
      destruct x; simpl; auto; split; auto; discriminate.
Qed.

(** ** The whole script *)

(** Once the three loads have delivered their tables, the outcome of the
    script is [build] of these tables, whatever retries the loads took. *)
Lemma run_build s p cf inc px :
  fst (retry (load_cashflow p)) = Value cf ->
  fst (retry (load_income p)) = Value inc ->
  fst (retry (load_shareprices p)) = Value px ->
  fst (run s p) = build s cf inc px.
Proof.
  destruct (retry (load_cashflow p)) as [r1 w1] eqn:E1.
  destruct (retry (load_income p)) as [r2 w2] eqn:E2.
  destruct (retry (load_shareprices p)) as [r3 w3] eqn:E3.
  simpl. intros -> -> ->.
  rewrite (run_loaded s p cf inc w1 w2 E1 E2). unfold build.
  destruct (fund_stage s cf inc); try reflexivity.
  unfold load. now rewrite E3.
Qed.

(** ** The sample tables *)

Ltac row_at := eexists; split; [vm_compute; reflexivity | ].
Ltac in_at n := apply (nth_error_In _ n); vm_compute; reflexivity.

Example dates_and_years :
  ymd 1970 1 1 = 0 /\ ymd 2021 1 4 = 18631 /\
  year_of (ymd 1999 12 31) = 1999 /\ year_of (ymd 2000 1 1) = 2000 /\
  year_of (ymd 2020 2 29) = 2020 /\ year_of (ymd 2021 1 4) = 2021.
Proof. vm_compute. tauto. Qed.

(** A cash-flow table without any of the candidate columns stops the
    script. *)
Example sample_no_capex_column :
  build Basic {| cf_columns := columns_none; cf_rows := cf_rows sample_cf |}
        sample_inc sample_px
  = Raise the_KeyError.
Proof. reflexivity. Qed.

(** Five quarters of one ticker with FCF per share 1.0, 1.1, 1.21, 1.33,
    1.46 and a lag of 4: the first four growths are null and the fifth is
    [(1.46 - 1.0) / 1.0], which in float64 is 0.45999999999999996. *)
Example sample_fcfps_growth :
  map snd (with_growth (fun _ : float64 => "T") (fun x => x) [4%nat] []
             sample_fcfps)
  = [ [(4%nat, F64.nan)]; [(4%nat, F64.nan)]; [(4%nat, F64.nan)];
      [(4%nat, F64.nan)];
      [(4%nat, S754_finite false 8286623314361712 (-54))] ].
Proof. vm_compute. reflexivity. Qed.

(** On the sample, the five AAA quarters, GAP and SPC come out; BBB (no
    income row), the 1999 quarter and DDD (price 11 days late) do not. *)
Example sample_output_keys :
  map (fun r => (out_Ticker r, out_ReportDate r)) sample_final =
  [ ("AAA", ymd 2020 3 31); ("AAA", ymd 2020 6 30); ("AAA", ymd 2020 9 30);
    ("AAA", ymd 2020 12 31); ("AAA", ymd 2021 3 31);
    ("GAP", ymd 2021 1 4); ("SPC", ymd 2021 1 4) ].
Proof. vm_compute. reflexivity. Qed.

(** The alignment example of the specification: report date 2021-01-04, prices 100 on
    2021-01-05 and 110 on 2021-01-15; the record is kept with price 100. *)
Example sample_spc_price :
  map out_Price (ticker_rows out_Ticker "SPC" sample_final) = [F64.of_Z 100].
Proof. vm_compute. reflexivity. Qed.

(** AAA's fifth quarter: price 150 against 100 four rows earlier. *)
Example sample_price_growth :
  option_map (fun r => growth_over 4 (out_Price_growth r))
             (nth_error (ticker_rows out_Ticker "AAA" sample_final) 4)
  = Some (Some (F64.of_ratio 1 2)).
Proof. vm_compute. reflexivity. Qed.

(** When the second quarter of AAA finds no price, its row is dropped and
    the fifth quarter has only three rows before it: its 4-quarter price
    growth is null. *)
Example dropped_quarter_shortens_history :
  map (fun r => (out_ReportDate r, growth_over 4 (out_Price_growth r)))
      (ticker_rows out_Ticker "AAA"
         (final Basic sample_fund sample_px_missing_quarter))
  = [ (ymd 2020 3 31, Some F64.nan); (ymd 2020 9 30, Some F64.nan);
      (ymd 2020 12 31, Some F64.nan); (ymd 2021 3 31, Some F64.nan) ].
Proof. vm_compute. reflexivity. Qed.

(** C1, as stated, fails.  GAP reports on 2021-01-04; its price row of
    2021-01-05 has no price and the row of 2021-01-06 has 110.  The record
    is aligned to the trade date 2021-01-05 and to the price 110, which is
    not the price of the row at the earliest qualifying trade date. *)
Lemma earliest_price_counterexample : ~ aligned_to_earliest sample_fund sample_px.
Proof.
  intros H.
  assert (Hm : exists m, nth_error (merged sample_fund sample_px) 5 = Some m)
    by (vm_compute; eauto).
  destruct Hm as [m Hm]. pose proof (nth_error_In _ _ Hm) as Hin.
  destruct (H m Hin) as (p & Hp & Hq & Hmin & HP).
  vm_compute in Hm. injection Hm as <-. clear Hin H.
  specialize (Hmin (px_line "GAP" (ymd 2021 1 5) F64.nan)
                   ltac:(vm_compute; tauto)
                   ltac:(vm_compute; repeat split; discriminate)).
  unfold sample_px in Hp. simpl in Hp.
  repeat (destruct Hp as [<- | Hp];
          [ vm_compute in HP, Hq, Hmin;
            first [ discriminate HP
                  | destruct Hq as [HqT _]; discriminate HqT
                  | now destruct Hmin ] | ]).
  exact Hp.
Qed.

Lemma aligned_price_witness :
  exists m, nth_error (merged sample_fund sample_px) 5 = Some m /\
            exists p, In p sample_px /\
                      Price m = px_AdjClose p /\ F64.isna (Price m) = false /\
                      px_Date p = ymd 2021 1 6.
Proof.
  row_at.
  match goal with
  | |- exists p, _ /\ Price ?m = _ /\ _ =>
      destruct (proj1 (proj2 (aligned_price sample_fund sample_px m
                                ltac:(in_at 5%nat))))
        as (p & Hp & Hq & HP & Hnn & Hbefore)
  end.
  exists p. split; [exact Hp | split; [exact HP | split; [exact Hnn | ]]].
  unfold sample_px in Hp. simpl in Hp.
  repeat (destruct Hp as [<- | Hp];
          [ vm_compute in HP, Hq;
            first [ reflexivity | discriminate HP
                  | destruct Hq as [HqT _]; discriminate HqT ] | ]).
  destruct Hp.
Defined.

(** C3, as stated, fails.  AAA's first quarter has a free cash flow per
    share of zero, and its fifth quarter one of 4: the 4-quarter growth of
    the fifth quarter is [(4 - 0) / 0], plus infinity, which is not null. *)
Lemma zero_lag_counterexample : ~ growth_null_on_zero_lag Basic sample_fund.
Proof.
  intros H.
  destruct (nth_error (ticker_rows (fun f => Ticker (f_base f)) "AAA" sample_fund) 4)
    as [f | ] eqn:E4; [ | vm_compute in E4; discriminate].
  destruct (nth_error (ticker_rows (fun f => Ticker (f_base f)) "AAA" sample_fund) 0)
    as [f' | ] eqn:E0; [ | vm_compute in E0; discriminate].
  specialize (H "AAA" 4%nat f f' 4%nat (or_introl eq_refl) E4 (le_n _) E0).
  vm_compute in E4, E0. injection E4 as <-. injection E0 as <-.
  specialize (H eq_refl). vm_compute in H. discriminate.
Qed.

Lemma fcfps_growth_nulls_witness :
  exists f, nth_error (ticker_rows (fun f => Ticker (f_base f)) "AAA" sample_fund) 4
            = Some f /\
            growth_over 4 (FCFps_growth f) = Some F64.pinf /\
            growth_over 8 (FCFps_growth f) = Some F64.nan.
Proof.
  row_at.
  match goal with
  | |- growth_over _ (FCFps_growth ?f) = _ /\ _ =>
      pose proof (fcfps_growth_nulls Basic "Capital Expenditures"
                    (cf_rows sample_cf) sample_inc "AAA" 4 f 8
                    (or_intror (or_introl eq_refl))
                    ltac:(vm_compute; reflexivity)) as H
  end.
  split; [vm_compute; reflexivity | ].
  apply (proj1 (proj2 H)). repeat constructor.
Defined.

Lemma price_growth_is_trailing_growth_witness :
  exists r, nth_error (ticker_rows out_Ticker "AAA" sample_final) 4 = Some r /\
            growth_over 8 (out_Price_growth r) = Some F64.nan.
Proof.
  row_at.
  match goal with
  | |- growth_over _ (out_Price_growth ?r) = _ =>
      pose proof (price_growth_is_trailing_growth Basic sample_cf sample_inc
                    sample_px sample_fund "AAA" 4 r 8
                    ltac:(vm_compute; reflexivity)
                    (or_intror (or_introl eq_refl))
                    ltac:(vm_compute; reflexivity)) as H
  end.
  apply (proj1 (proj2 (proj2 (proj2 H)))). repeat constructor.
Defined.

Lemma price_match_invariant_witness :
  exists r, nth_error sample_final 6 = Some r /\ F64.isna (out_Price r) = false.
Proof.
  row_at.
  match goal with
  | |- F64.isna (out_Price ?r) = false =>
      apply (proj2 (price_match_invariant Basic sample_fund sample_px) r)
  end.
  in_at 6%nat.
Defined.

Lemma market_cap_is_price_times_shares_witness :
  exists r, nth_error sample_final 6 = Some r /\
            exists ir, In ir sample_inc /\
                       inc_Ticker ir = out_Ticker r /\
                       inc_ReportDate ir = out_ReportDate r /\
                       out_Market_Cap r = F64.mul (out_Price r) (inc_Shares ir).
Proof.
  row_at.
  match goal with
  | |- exists ir, _ /\ _ = out_Ticker ?r /\ _ =>
      apply (market_cap_is_price_times_shares Basic sample_cf sample_inc
               sample_px sample_final r)
  end.
  - vm_compute. reflexivity.
  - in_at 6%nat.
Defined.

Lemma alignment_preserves_fundamentals_witness :
  exists r, nth_error sample_final 4 = Some r /\
            exists f, In f sample_fund /\
                      out_Ticker r = Ticker (f_base f) /\
                      out_ReportDate r = ReportDate (f_base f) /\
                      out_FCF r = FCF (f_base f) /\
                      out_FCF_per_share r = FCF_per_share (f_base f) /\
                      out_FCFps_growth r = FCFps_growth f.
Proof.
  row_at.
  match goal with
  | |- exists f, _ /\ out_Ticker ?r = _ /\ _ =>
      apply (proj2 (proj2 (alignment_preserves_fundamentals Basic sample_fund
                             sample_px)) r)
  end.
  in_at 4%nat.
Defined.

Lemma fundamentals_inner_join_witness :
  exists f, nth_error sample_fund 7 = Some f /\
            (exists cr, In cr (cf_rows sample_cf) /\
                        cf_Ticker cr = Ticker (f_base f) /\
                        cf_ReportDate cr = ReportDate (f_base f)) /\
            (exists ir, In ir sample_inc /\
                        inc_Ticker ir = Ticker (f_base f) /\
                        inc_ReportDate ir = ReportDate (f_base f)).
Proof.
  row_at.
  match goal with
  | |- (exists cr, _ /\ _ = Ticker (f_base ?f) /\ _) /\ _ =>
      apply (proj1 (fundamentals_inner_join Basic "Capital Expenditures"
                      (cf_rows sample_cf) sample_inc) f)
  end.
  in_at 7%nat.
Defined.

(* ====================================================================== *)
(** * Further properties of the scripts *)
(* ====================================================================== *)

(** ** The fundamentals frame *)

Lemma in_fundamentals_base s capex cf inc b :
  In b (fund_sorted s capex cf inc) ->
  exists f, In f (fundamentals s capex cf inc) /\ f_base f = b.
Proof.
  rewrite <- fundamentals_rows, in_map_iff.
  intros (f & <- & Hf). eauto.
Qed.

(** X1.  [fund] has a row for a [(Ticker, Report Date)] exactly when the key
    is in the cash-flow table and in the income table and the year of the
    report date is [START_YEAR] or later. *)
Theorem fund_keys_exact (s : schema) (capex : string) (cf : list cf_row)
    (inc : list inc_row) (T : string) (R : date) :
  (exists f, In f (fundamentals s capex cf inc) /\
             Ticker (f_base f) = T /\ ReportDate (f_base f) = R) <->
  (START_YEAR <= year_of R /\
   (exists cr, In cr cf /\ cf_Ticker cr = T /\ cf_ReportDate cr = R) /\
   (exists ir, In ir inc /\ inc_Ticker ir = T /\ inc_ReportDate ir = R)).
Proof.
  split.
  - intros (f & Hf & <- & <-). apply in_fundamentals in Hf.
    destruct Hf as (cr & ir & Hcr & Hir & HT & HR & Hy & ->). simpl.
    split; [exact Hy | split; [exists cr | exists ir]]; auto.
  - intros (Hy & (cr & Hcr & <- & <-) & (ir & Hir & HT & HR)).
    destruct (in_fundamentals_base s capex cf inc
                (mk_fund (compute_FCF capex cr) (select_inc s ir)))
      as (f & Hf & Hb).
    + apply in_fund_sorted. exists cr, ir. auto 7.
    + exists f. rewrite Hb. simpl. auto.
Qed.

(** X2.  In every output row FCF is the float64 sum of the operating cash
    flow and the resolved CapEx column of a cash-flow row with the row's key,
    and FCF_per_share is the float64 quotient of that FCF by the Shares
    (Basic) of an income row with the same key. *)
Theorem fcf_columns (s : schema) (cf : cf_table) (inc : list inc_row)
    (px : list px_row) (out : list final_row) (r : final_row) :
  build s cf inc px = Value out ->
  In r out ->
  exists capex cr ir,
    resolve_capex cf = Value capex /\
    In cr (cf_rows cf) /\ In ir inc /\
    cf_Ticker cr = out_Ticker r /\ cf_ReportDate cr = out_ReportDate r /\
    inc_Ticker ir = out_Ticker r /\ inc_ReportDate ir = out_ReportDate r /\
    out_FCF r = F64.add (cf_OCF cr) (cell capex (cf_cells cr)) /\
    out_FCF_per_share r = F64.div (out_FCF r) (inc_Shares ir).
Proof.
  unfold build, fund_stage.
  destruct (resolve_capex cf) as [c | | e]; try discriminate.
  intros [= <-] Hr. apply in_final_of in Hr.
  destruct Hr as (m & Hm & Hpart & _).
  apply in_merged in Hm. destruct Hm as (Hf & _).
  apply in_fundamentals in Hf.
  destruct Hf as (cr & ir & Hcr & Hir & HT & HR & _ & Hb).
  unfold fund_part, fund_part_of in Hpart.
  injection Hpart as HrT HrR HrF HrS _.
  exists c, cr, ir. rewrite HrT, HrR, HrS, HrF, Hb. simpl.
  repeat split; auto.
Qed.

Lemma fcf_columns_witness :
  exists r, nth_error sample_final 1 = Some r /\
            exists capex cr ir,
              resolve_capex sample_cf = Value capex /\
              In cr (cf_rows sample_cf) /\ In ir sample_inc /\
              cf_Ticker cr = out_Ticker r /\
              cf_ReportDate cr = out_ReportDate r /\
              inc_Ticker ir = out_Ticker r /\
              inc_ReportDate ir = out_ReportDate r /\
              out_FCF r = F64.add (cf_OCF cr) (cell capex (cf_cells cr)) /\
              out_FCF_per_share r = F64.div (out_FCF r) (inc_Shares ir).
Proof.
  row_at.
  match goal with
  | |- exists capex cr ir, _ /\ _ /\ _ /\ _ = out_Ticker ?r /\ _ =>
      apply (fcf_columns Basic sample_cf sample_inc sample_px sample_final r)
  end.
  - vm_compute. reflexivity.
  - in_at 1%nat.
Defined.

(** X3.  The extended script carries Revenue and Net Income of the income
    row through to the output unchanged; the basic script carries neither. *)
Theorem income_columns (s : schema) (cf : cf_table) (inc : list inc_row)
    (px : list px_row) (out : list final_row) (r : final_row) :
  build s cf inc px = Value out ->
  In r out ->
  match s with
  | Basic => out_extras r = []
  | Extended =>
      exists ir, In ir inc /\
                 inc_Ticker ir = out_Ticker r /\
                 inc_ReportDate ir = out_ReportDate r /\
                 out_extras r = [("Revenue", inc_Revenue ir);
                                 ("Net Income", inc_NetIncome ir)]
  end.
Proof.
  unfold build, fund_stage.
  destruct (resolve_capex cf) as [c | | e]; try discriminate.
  intros [= <-] Hr. apply in_final_of in Hr.
  destruct Hr as (m & Hm & Hpart & Hex & _).
  apply in_merged in Hm. destruct Hm as (Hf & _).
  apply in_fundamentals in Hf.
  destruct Hf as (cr & ir & _ & Hir & HT & HR & _ & Hb).
  unfold fund_part, fund_part_of in Hpart.
  injection Hpart as HrT HrR _ _ _.
  rewrite Hb in Hex, HrT, HrR. simpl in *.
  destruct s; [exact Hex | ].
  exists ir. rewrite HrT, HrR. auto.
Qed.

Lemma income_columns_witness :
  exists r, nth_error (final Extended
                         (fundamentals Extended "Capital Expenditures"
                            (cf_rows sample_cf) sample_inc) sample_px) 0
            = Some r /\
            exists ir, In ir sample_inc /\
                       inc_Ticker ir = out_Ticker r /\
                       inc_ReportDate ir = out_ReportDate r /\
                       out_extras r = [("Revenue", inc_Revenue ir);
                                       ("Net Income", inc_NetIncome ir)].
Proof.
  row_at.
  match goal with
  | |- exists ir, _ /\ _ = out_Ticker ?r /\ _ =>
      apply (income_columns Extended sample_cf sample_inc sample_px _ r
               eq_refl)
  end.
  in_at 0%nat.
Defined.

(** ** Order of the output *)

Lemma StronglySorted_impl {A} (R S : A -> A -> Prop) l :
  (forall a b, R a b -> S a b) -> StronglySorted R l -> StronglySorted S l.
Proof.
  intros HRS. induction 1 as [ | x l Hl IH Hx]; constructor; auto.
  eapply Forall_impl; [ | exact Hx]. auto.
Qed.

Lemma lex_key_before ta da tb db :
  leb_of (lex (String.compare ta tb) (Z.compare da db)) = true ->
  key_before (ta, da) (tb, db).
Proof.
  unfold key_before. simpl.
  destruct (String.compare ta tb) eqn:E; simpl; intros H.
  - right. split; [now apply String.compare_eq_iff | ].
    unfold date in *. destruct (Z.compare_spec da db); try discriminate; lia.
  - now left.
  - discriminate.
Qed.

(** X4.  The output table is in ascending order of Ticker and, within a
    ticker, of Report Date: every row comes before the rows below it. *)
Theorem output_sorted (s : schema) (cf : cf_table) (inc : list inc_row)
    (px : list px_row) (out : list final_row) :
  build s cf inc px = Value out ->
  StronglySorted (fun a b => key_before (out_key a) (out_key b)) out.
Proof.
  unfold build, fund_stage.
  destruct (resolve_capex cf) as [c | | e]; try discriminate.
  intros [= <-].
  eapply StronglySorted_impl; [ | apply final_sorted_by_key].
  intros a b. apply lex_key_before.
Qed.

Lemma output_sorted_witness :
  StronglySorted (fun a b => key_before (out_key a) (out_key b)) sample_final.
Proof.
  apply (output_sorted Basic sample_cf sample_inc sample_px).
  vm_compute. reflexivity.
Defined.

(** ** Which records are kept *)

Lemma final_row_priced s fund px r :
  In r (final s fund px) ->
  exists f p, In f fund /\ fund_part r = fund_part_of f /\
              In p px /\ qualifies (out_Ticker r) (out_ReportDate r) p /\
              F64.isna (px_AdjClose p) = false /\
              out_Price r = px_AdjClose p.
Proof.
  intros Hr. apply in_final_of in Hr.
  destruct Hr as (m & Hm & Hpart & _ & HP & _).
  destruct (in_merged _ _ _ Hm) as (Hf & Hnn & tr & Htr & HT & HR & _ & Hpr).
  apply temp_row_spec in Htr. destruct Htr as (_ & _ & Hprice).
  rewrite <- Hpr in Hprice. destruct (Hprice Hnn) as (p & Hp & Hq & Hpp & _).
  pose proof Hpart as Hkey. unfold fund_part, fund_part_of in Hkey.
  injection Hkey as HrT HrR _ _ _.
  rewrite HT, <- HrT, HR, <- HrR in Hq.
  exists (m_fund m), p. rewrite HP, <- Hpp. auto 8.
Qed.

(** X5.  A record of [fund] is in the output exactly when the price series
    of its ticker has a row with a price that is not null, traded on the
    report date or within the 7 days after it. *)
Theorem retained_iff_priced (s : schema) (fund : list fund_row)
    (px : list px_row) (f : fund_row) :
  In f fund ->
  ((exists r, In r (final s fund px) /\ fund_part r = fund_part_of f) <->
   (exists p, In p px /\
              qualifies (Ticker (f_base f)) (ReportDate (f_base f)) p /\
              F64.isna (px_AdjClose p) = false)).
Proof.
  intros Hf. split.
  - intros (r & Hr & Hpart). apply final_row_priced in Hr.
    destruct Hr as (_ & p & _ & _ & Hp & Hq & Hnn & _).
    unfold fund_part, fund_part_of in Hpart. injection Hpart as HT HR _ _ _.
    rewrite HT, HR in Hq. eauto.
  - intros (p & Hp & Hq & Hnn).
    now apply (priced_record_is_retained s fund px f p).
Qed.

Lemma retained_iff_priced_witness :
  exists f, nth_error sample_fund 5 = Some f /\
            ~ exists r, In r sample_final /\ fund_part r = fund_part_of f.
Proof.
  row_at.
  match goal with
  | |- ~ (exists r, _ /\ _ = fund_part_of ?f) =>
      rewrite (retained_iff_priced Basic sample_fund sample_px f
                 ltac:(in_at 5%nat))
  end.
  intros (p & Hp & Hq & _). unfold sample_px in Hp. simpl in Hp.
  repeat (destruct Hp as [<- | Hp];
          [ vm_compute in Hq; destruct Hq as (HqT & HqL & HqU);
            first [ discriminate HqT | now destruct HqU | now destruct HqL ]
          | ]).
  exact Hp.
Defined.

(** X6.  The window is closed at both ends: a price of the ticker that is
    not null and is dated on the report date itself, or exactly 7 days
    after it, keeps the record; when every price of the ticker is dated
    before the report date or more than 7 days after it, the key has no
    output row. *)
Theorem window_bounds (s : schema) (fund : list fund_row) (px : list px_row)
    (f : fund_row) :
  In f fund ->
  let T := Ticker (f_base f) in
  let R := ReportDate (f_base f) in
  (forall p, In p px -> px_Ticker p = T -> F64.isna (px_AdjClose p) = false ->
             px_Date p = R \/ px_Date p = R + Timedelta_days 7 ->
             exists r, In r (final s fund px) /\ fund_part r = fund_part_of f) /\
  ((forall p, In p px -> px_Ticker p = T ->
              px_Date p < R \/ R + Timedelta_days 7 < px_Date p) ->
   forall r, In r (final s fund px) -> out_key r <> (T, R)).
Proof.
  intros Hf T R. split.
  - intros p Hp HT Hnn Hd.
    apply (priced_record_is_retained s fund px f p); auto.
    split; [exact HT | ]. fold R. unfold Timedelta_days, date in *. lia.
  - intros Hout r Hr Hkey. apply final_row_priced in Hr.
    destruct Hr as (_ & p & _ & _ & Hp & (HpT & HpR) & _).
    unfold out_key in Hkey. injection Hkey as HrT HrR.
    rewrite HrT, HrR in *.
    specialize (Hout p Hp HpT). unfold Timedelta_days, date in *. lia.
Qed.

Lemma window_bounds_witness :
  exists f, nth_error sample_fund 3 = Some f /\
            exists r, In r sample_final /\ fund_part r = fund_part_of f.
Proof.
  row_at.
  match goal with
  | |- exists r, _ /\ _ = fund_part_of ?f =>
      apply (proj1 (window_bounds Basic sample_fund sample_px f
                      ltac:(in_at 3%nat))
               (px_line "AAA" (ymd 2021 1 7) (F64.of_Z 130)))
  end.
  - vm_compute. tauto.
  - reflexivity.
  - reflexivity.
  - right. reflexivity.
Defined.

(** ** The aligned trade date *)

Lemma merged_trade_date fund px m :
  In m (merged fund px) ->
  exists p0, In p0 px /\
             qualifies (m_Ticker m) (ReportDate (f_base (m_fund m))) p0 /\
             TradeDate m = Some (px_Date p0) /\
             forall q, In q px ->
                       qualifies (m_Ticker m) (ReportDate (f_base (m_fund m))) q ->
                       px_Date p0 <= px_Date q.
Proof.
  intros Hm.
  destruct (in_merged _ _ _ Hm) as (_ & _ & tr & Htr & HT & HR & Hd & _).
  apply temp_row_spec in Htr. rewrite HT, HR, <- Hd in Htr.
  destruct Htr as (_ & H & _). exact H.
Qed.

(** X7.  Aligned trade dates follow the report dates: of two retained
    records of one ticker, the one with the later report date is not aligned
    to an earlier trade date.  A record whose report date is itself a trade
    date of the ticker is aligned to that day. *)
Theorem trade_dates_monotone (fund : list fund_row) (px : list px_row)
    (m1 m2 : merged_row) (d1 d2 : date) :
  In m1 (merged fund px) -> In m2 (merged fund px) ->
  m_Ticker m1 = m_Ticker m2 ->
  ReportDate (f_base (m_fund m1)) <= ReportDate (f_base (m_fund m2)) ->
  TradeDate m1 = Some d1 -> TradeDate m2 = Some d2 ->
  d1 <= d2 /\
  ((exists p, In p px /\ px_Ticker p = m_Ticker m1 /\
              px_Date p = ReportDate (f_base (m_fund m1))) ->
   d1 = ReportDate (f_base (m_fund m1))).
Proof.
  intros H1 H2 HT HR E1 E2.
  destruct (merged_trade_date _ _ _ H1) as (p1 & Hp1 & Hq1 & Hd1 & Hmin1).
  destruct (merged_trade_date _ _ _ H2) as (p2 & Hp2 & Hq2 & Hd2 & _).
  rewrite E1 in Hd1. rewrite E2 in Hd2.
  injection Hd1 as ->. injection Hd2 as ->.
  destruct Hq1 as (HT1 & HL1 & HU1), Hq2 as (HT2 & HL2 & HU2).
  unfold Timedelta_days, date in *. split.
  - destruct (Z_le_gt_dec (px_Date p2)
                (ReportDate (f_base (m_fund m1)) + 7)) as [Hin | Hout].
    + apply (Hmin1 p2 Hp2). split; [congruence | ].
      unfold Timedelta_days. lia.
    + lia.
  - intros (p & Hp & HpT & HpR).
    assert (px_Date p1 <= px_Date p).
    { apply (Hmin1 p Hp). split; [exact HpT | ].
      unfold Timedelta_days. lia. }
    lia.
Qed.

Lemma trade_dates_monotone_witness :
  exists m1 m2, nth_error (merged sample_fund sample_px) 1 = Some m1 /\
                nth_error (merged sample_fund sample_px) 2 = Some m2 /\
                ymd 2020 6 30 <= ymd 2020 10 1.
Proof.
  eexists. eexists.
  split; [vm_compute; reflexivity | split; [vm_compute; reflexivity | ]].
  match goal with
  | |- ?a <= ?b =>
      refine (proj1 (trade_dates_monotone sample_fund sample_px _ _ a b
                       ltac:(in_at 1%nat) ltac:(in_at 2%nat) _ _ _ _))
  end; vm_compute; congruence.
Defined.

(** ** The script and its loaders *)

(** X8.  A load that ends in an exception ends the script with that
    exception, and the loaders that come after it in the script are not
    called: the calls and sleeps of the run are those made up to the failing
    load. *)
Theorem failed_load_aborts (s : schema) (p : provider) :
  (forall e, fst (retry (load_cashflow p)) = Raise e ->
             run s p = (Raise e, snd (retry (load_cashflow p)))) /\
  (forall cf w1 e,
      retry (load_cashflow p) = (Value cf, w1) ->
      fst (retry (load_income p)) = Raise e ->
      run s p = (Raise e, and_then_effects w1 (snd (retry (load_income p))))) /\
  (forall cf inc w1 w2 fund e,
      retry (load_cashflow p) = (Value cf, w1) ->
      retry (load_income p) = (Value inc, w2) ->
      fund_stage s cf inc = Value fund ->
      fst (retry (load_shareprices p)) = Raise e ->
      run s p = (Raise e,
                 and_then_effects w1
                   (and_then_effects w2 (snd (retry (load_shareprices p)))))).
Proof.
  split; [ | split].
  - intros e He. unfold run, load at 1.
    destruct (retry (load_cashflow p)) as [r w]. simpl in *. now subst r.
  - intros cf w1 e H1 He. unfold run, load at 1. rewrite H1.
    unfold load at 1.
    destruct (retry (load_income p)) as [r w]. simpl in *. now subst r.
  - intros cf inc w1 w2 fund e H1 H2 Hfund He.
    rewrite (run_loaded s p cf inc w1 w2 H1 H2), Hfund. unfold load.
    destruct (retry (load_shareprices p)) as [r w]. simpl in *. now subst r.
Qed.

Lemma failed_load_aborts_witness :
  run Basic provider_prices_down
  = (Raise (HTTPError 503), {| calls := 9; slept := [8; 16; 8; 16; 32; 64] |}).
Proof.
  refine (eq_trans
            (proj2 (proj2 (failed_load_aborts Basic provider_prices_down))
               sample_cf sample_inc {| calls := 1; slept := [] |}
               {| calls := 3; slept := [8; 16] |} sample_fund
               (HTTPError 503) _ _ _ _) _);
    vm_compute; reflexivity.
Defined.

(** X9.  Whatever the wrapped function does, [retry] sleeps only between
    two attempts: after [n] calls it has slept [n - 1] times, for
    [RETRY_DELAY * 2 ** i] seconds after attempt [i], never after the last
    attempt, and for no more than 120 seconds in all. *)
Theorem retry_sleep_schedule {A} (func : nat -> outcome A) :
  slept (snd (retry func)) = backoff (calls (snd (retry func)) - 1) /\
  0 <= total_sleep (snd (retry func)) <= 120.
Proof.
  unfold retry, MAX_RETRY, total_sleep. simpl.
  repeat (match goal with
          | |- context [match func ?k with _ => _ end] => destruct (func k)
          | |- context [if ?b then _ else _] => destruct b
          end; simpl; try (split; [reflexivity | lia])).
Qed.

(** X10.  What [retry] returns or raises is decided by the last call of
    the wrapped function, and every call before the last one raised an
    [HTTPError] with a 5xx status.  A value, an exception that is no
    [HTTPError], and an [HTTPError] whose status is not 5xx or that comes
    at the last of the [MAX_RETRY] attempts, leave [retry] as they are.
    The one exception of [retry]'s own is the [AttributeError] of
    [e.response.status_code]: it replaces an [HTTPError] without a response
    that comes before the last attempt.  [retry] never returns [None]. *)
Theorem retry_result_is_last_outcome {A} (func : nat -> outcome A) :
  let n := calls (snd (retry func)) in
  (forall j, (S j < n)%nat ->
             exists code, func j = RaisesHTTPError code /\ is_5xx code = true) /\
  match fst (retry func) with
  | Value a => func (n - 1)%nat = Returns a
  | Raise (HTTPError code) =>
      func (n - 1)%nat = RaisesHTTPError code /\
      (is_5xx code = false \/ n = MAX_RETRY)
  | Raise HTTPErrorWithoutResponse =>
      func (n - 1)%nat = RaisesHTTPErrorWithoutResponse /\ n = MAX_RETRY
  | Raise AttributeError =>
      func (n - 1)%nat = RaisesHTTPErrorWithoutResponse /\ (n < MAX_RETRY)%nat
  | Raise (OtherError what) => func (n - 1)%nat = RaisesOther what
  | Raise (KeyError _) => False
  | ValueNone => False
  end.
Proof.
  assert (H : forall n i w,
             calls w = i -> (i + n = MAX_RETRY)%nat -> (0 < n)%nat ->
             (forall j, (j < i)%nat ->
                        exists code, func j = RaisesHTTPError code /\
                                     is_5xx code = true) ->
             let m := calls (snd (retry_loop func (seq i n) w)) in
             (forall j, (S j < m)%nat ->
                        exists code, func j = RaisesHTTPError code /\
                                     is_5xx code = true) /\
             match fst (retry_loop func (seq i n) w) with
             | Value a => func (m - 1)%nat = Returns a
             | Raise (HTTPError code) =>
                 func (m - 1)%nat = RaisesHTTPError code /\
                 (is_5xx code = false \/ m = MAX_RETRY)
             | Raise HTTPErrorWithoutResponse =>
                 func (m - 1)%nat = RaisesHTTPErrorWithoutResponse /\
                 m = MAX_RETRY
             | Raise AttributeError =>
                 func (m - 1)%nat = RaisesHTTPErrorWithoutResponse /\
                 (m < MAX_RETRY)%nat
             | Raise (OtherError what) => func (m - 1)%nat = RaisesOther what
             | Raise (KeyError _) => False
             | ValueNone => False
             end).
  { induction n as [ | n IH]; intros i w Hw Hin Hn Hpre; [lia | ].
    cbn [seq retry_loop]. rewrite Hw.
    destruct (func i) as [a | code | | what] eqn:Ei.
    - cbn [fst snd calls called]. rewrite Hw, Nat.sub_succ, Nat.sub_0_r.
      split; [ | exact Ei]. intros j Hj. apply Hpre. lia.
    - destruct (Nat.eqb i (MAX_RETRY - 1) || negb (is_5xx code)) eqn:Estop.
      + cbn [fst snd calls called]. rewrite Hw, Nat.sub_succ, Nat.sub_0_r.
        split; [intros j Hj; apply Hpre; lia | ].
        split; [exact Ei | ].
        apply orb_true_iff in Estop. destruct Estop as [E | E].
        * right. apply Nat.eqb_eq in E. unfold MAX_RETRY in *. lia.
        * left. now destruct (is_5xx code).
      + apply orb_false_iff in Estop. destruct Estop as [E4 E5].
        apply Nat.eqb_neq in E4.
        assert (H5 : is_5xx code = true) by now destruct (is_5xx code).
        apply (IH (S i)).
        * cbn [calls sleep called]. now rewrite Hw.
        * lia.
        * unfold MAX_RETRY in *. lia.
        * intros j Hj. destruct (Nat.eq_dec j i) as [-> | Hne].
          -- eauto.
          -- apply Hpre. lia.
    - destruct (Nat.eqb i (MAX_RETRY - 1)) eqn:Elast;
        cbn [fst snd calls called]; rewrite Hw, Nat.sub_succ, Nat.sub_0_r;
        (split; [intros j Hj; apply Hpre; lia | ]); (split; [exact Ei | ]).
      + apply Nat.eqb_eq in Elast. unfold MAX_RETRY in *. lia.
      + apply Nat.eqb_neq in Elast. unfold MAX_RETRY in *. lia.
    - cbn [fst snd calls called]. rewrite Hw, Nat.sub_succ, Nat.sub_0_r.
      split; [ | exact Ei]. intros j Hj. apply Hpre. lia. }
  apply (H MAX_RETRY 0%nat no_effects); try reflexivity.
  - unfold MAX_RETRY. lia.
  - intros j Hj. lia.
Qed.

(** ** Keys *)

Lemma NoDup_map_filter {A K} (k : A -> K) (p : A -> bool) l :
  NoDup (map k l) -> NoDup (map k (filter p l)).
Proof.
  induction l as [ | a l IH]; simpl; intros H; [constructor | ].
  inversion H as [ | ? ? Hnotin Hnd]; subst.
  destruct (p a); simpl; auto.
  constructor; auto. intros Hin. apply Hnotin.
  apply in_map_iff in Hin. destruct Hin as (b & <- & Hb).
  apply filter_In in Hb. apply in_map. tauto.
Qed.

Lemma NoDup_map_In_eq {A K} (k : A -> K) l a b :
  NoDup (map k l) -> In a l -> In b l -> k a = k b -> a = b.
Proof.
  induction l as [ | x l IH]; simpl; intros H Ha Hb E; [destruct Ha | ].
  inversion H as [ | ? ? Hnotin Hnd]; subst.
  destruct Ha as [<- | Ha], Hb as [<- | Hb]; auto.
  - destruct Hnotin. rewrite E. now apply in_map.
  - destruct Hnotin. rewrite <- E. now apply in_map.
Qed.

Lemma flat_map_keys_nodup {A C K} (k : A -> K) (k' : C -> K)
    (g : A -> list C) l :
  NoDup (map k l) ->
  (forall a, In a l -> (List.length (g a) <= 1)%nat) ->
  (forall a c, In c (g a) -> k' c = k a) ->
  NoDup (map k' (flat_map g l)).
Proof.
  intros Hnd Hlen Hkey. induction l as [ | a l IH]; simpl; [constructor | ].
  inversion Hnd as [ | ? ? Hnotin Hnd']; subst.
  specialize (IH Hnd' (fun x Hx => Hlen x (or_intror Hx))).
  pose proof (Hlen a (or_introl eq_refl)) as Hla.
  destruct (g a) as [ | c [ | c' cs]] eqn:Eg; simpl in *; try lia; auto.
  constructor; auto. intros Hin. apply Hnotin.
  rewrite (Hkey a c) in Hin by (rewrite Eg; now left).
  apply in_map_iff in Hin. destruct Hin as (c0 & Hc0 & Hin).
  apply in_flat_map in Hin. destruct Hin as (a0 & Ha0 & Hin).
  rewrite (Hkey a0 c0 Hin) in Hc0. rewrite <- Hc0. now apply in_map.
Qed.

Lemma fund_sorted_keys_nodup s capex cf inc :
  NoDup (map cf_key cf) -> NoDup (map inc_key inc) ->
  NoDup (map (fun b => (Ticker b, ReportDate b)) (fund_sorted s capex cf inc)).
Proof.
  intros Hcf Hinc. unfold fund_sorted.
  eapply Permutation_NoDup.
  - symmetry. apply Permutation_map, sort_values_perm.
  - apply NoDup_map_filter. unfold merge_inner.
    apply (flat_map_keys_nodup (fun c => (c_Ticker c, c_ReportDate c))).
    + rewrite map_map. exact Hcf.
    + intros c _. rewrite length_map.
      apply (filter_key_unique (fun i => (i_Ticker i, i_ReportDate i)) _
               (c_Ticker c, c_ReportDate c)).
      * rewrite map_map. exact Hinc.
      * intros i _ Hon. apply same_key_true in Hon. now destruct Hon as [-> ->].
    + intros c b Hb. apply in_map_iff in Hb. now destruct Hb as (i & <- & _).
Qed.

Lemma fund_keys_nodup s capex cf inc :
  NoDup (map cf_key cf) -> NoDup (map inc_key inc) ->
  NoDup (map fund_key (fundamentals s capex cf inc)).
Proof.
  intros Hcf Hinc.
  pose proof (fund_sorted_keys_nodup s capex cf inc Hcf Hinc) as H.
  rewrite <- fundamentals_rows, map_map in H. exact H.
Qed.

(** X11.  When [(Ticker, Report Date)] is a key of the cash-flow table and
    of the income table (no key twice), it is a key of [fund] and of the
    output table too. *)
Theorem output_keys_unique (s : schema) (cf : cf_table) (inc : list inc_row)
    (px : list px_row) (out : list final_row) :
  NoDup (map cf_key (cf_rows cf)) ->
  NoDup (map inc_key inc) ->
  build s cf inc px = Value out ->
  NoDup (map out_key out) /\
  (forall fund, fund_stage s cf inc = Value fund -> NoDup (map fund_key fund)).
Proof.
  intros Hcf Hinc. unfold build, fund_stage.
  destruct (resolve_capex cf) as [c | | e]; try discriminate.
  intros [= <-].
  pose proof (fund_keys_nodup s c (cf_rows cf) inc Hcf Hinc) as Hfund.
  split; [ | now intros fund [= <-]].
  destruct (merged_rowwise (fundamentals s c (cf_rows cf) inc) px)
    as (keep & Hkeep).
  pose proof (final_fund_part s (fundamentals s c (cf_rows cf) inc) px) as Hpart.
  rewrite Hkeep in Hpart.
  apply (f_equal (map (fun x : string * date * float64 * float64
                                 * list (nat * float64) =>
                         let '(t, d, _, _, _) := x in (t, d)))) in Hpart.
  rewrite !map_map in Hpart. simpl in Hpart.
  unfold out_key. rewrite Hpart. now apply (NoDup_map_filter fund_key).
Qed.

Lemma output_keys_unique_witness : NoDup (map out_key sample_final).
Proof.
  refine (proj1 (output_keys_unique Basic sample_cf sample_inc sample_px
                   sample_final _ _ _)).
  - vm_compute. repeat constructor; simpl; intuition discriminate.
  - vm_compute. repeat constructor; simpl; intuition discriminate.
  - vm_compute. reflexivity.
Defined.

(** ** Row order of the input tables *)

Lemma by_Ticker_TradeDate_ok : cmp_ok by_Ticker_TradeDate.
Proof.
  apply (cmp_ok_lex px_Ticker String.compare
           (fun a b => Z.compare (px_Date a) (px_Date b))).
  - apply string_cmp_ok.
  - apply (cmp_ok_on px_Date), Z_cmp_ok.
Qed.

Lemma lex_eq_key ta da tb db :
  lex (String.compare ta tb) (Z.compare da db) = Eq -> (ta, da) = (tb, db).
Proof.
  destruct (String.compare ta tb) eqn:E; simpl; try discriminate.
  intros H. apply String.compare_eq_iff in E. apply Z.compare_eq in H.
  now subst.
Qed.

Lemma filter_perm {A} (p : A -> bool) l l' :
  Permutation l l' -> Permutation (filter p l) (filter p l').
Proof.
  induction 1 as [ | x l l' H IH | x y l | l l' l'' H1 IH1 H2 IH2]; simpl.
  - constructor.
  - destruct (p x); auto.
  - destruct (p x), (p y); auto. apply perm_swap.
  - now transitivity (filter p l').
Qed.

Lemma flat_map_perm {A B} (f g : A -> list B) l l' :
  Permutation l l' ->
  (forall a, Permutation (f a) (g a)) ->
  Permutation (flat_map f l) (flat_map g l').
Proof.
  intros Hl Hfg. transitivity (flat_map g l).
  - clear Hl. induction l as [ | a l IH]; simpl; auto.
    now apply Permutation_app.
  - clear Hfg. induction Hl as [ | x l l' H IH | x y l | l l' l'' H1 IH1 H2 IH2];
      simpl; auto.
    + now apply Permutation_app_head.
    + rewrite !app_assoc. apply Permutation_app_tail, Permutation_app_comm.
    + now transitivity (flat_map g l').
Qed.

(** Two sorted frames with the same rows are the same frame, when no two
    rows share their sort key. *)
Lemma sorted_perm_eq {A} (cmp : A -> A -> comparison) (Hok : cmp_ok cmp) :
  forall l l',
  StronglySorted (sorts_before cmp) l ->
  StronglySorted (sorts_before cmp) l' ->
  Permutation l l' ->
  (forall a b, In a l -> In b l -> cmp a b = Eq -> a = b) ->
  l = l'.
Proof.
  induction l as [ | a l IH]; intros l' Hs Hs' Hp Huniq.
  - apply Permutation_nil in Hp. now subst.
  - destruct l' as [ | b l'].
    + apply Permutation_sym, Permutation_nil in Hp. discriminate.
    + inversion Hs as [ | ? ? Hl Ha]; subst.
      inversion Hs' as [ | ? ? Hl' Hb]; subst.
      rewrite Forall_forall in Ha, Hb.
      assert (Eab : a = b).
      { assert (Hain : In a (b :: l'))
          by (apply (Permutation_in _ Hp); now left).
        assert (Hbin : In b (a :: l))
          by (apply (Permutation_in _ (Permutation_sym Hp)); now left).
        destruct Hain as [E | Hain]; [now subst | ].
        destruct Hbin as [E | Hbin]; [now subst | ].
        apply Huniq; [now left | now right | ].
        pose proof (Ha b Hbin) as Hab. pose proof (Hb a Hain) as Hba.
        unfold sorts_before in *. rewrite (cmp_anti _ Hok a b) in Hba.
        destruct (cmp a b); simpl in *; congruence. }
      subst b. f_equal. apply IH; auto.
      * now apply Permutation_cons_inv in Hp.
      * intros x y Hx Hy. apply Huniq; now right.
Qed.

Lemma prices_perm px px' :
  Permutation px px' -> NoDup (map px_key px) -> prices px = prices px'.
Proof.
  intros Hp Hnd. unfold prices.
  apply (sorted_perm_eq _ by_Ticker_TradeDate_ok).
  - apply sort_values_sorted, by_Ticker_TradeDate_ok.
  - apply sort_values_sorted, by_Ticker_TradeDate_ok.
  - rewrite !sort_values_perm. exact Hp.
  - intros a b Ha Hb E. apply sort_values_In in Ha, Hb.
    apply (NoDup_map_In_eq px_key px); auto.
    now apply lex_eq_key.
Qed.

Lemma fund_sorted_perm s capex cf cf' inc inc' :
  Permutation cf cf' -> Permutation inc inc' ->
  NoDup (map cf_key cf) -> NoDup (map inc_key inc) ->
  fund_sorted s capex cf inc = fund_sorted s capex cf' inc'.
Proof.
  intros Hcf Hinc Hncf Hninc.
  pose proof (fund_sorted_keys_nodup s capex cf inc Hncf Hninc) as Hkeys.
  unfold fund_sorted in *.
  apply (sorted_perm_eq _ by_Ticker_ReportDate_ok).
  - apply sort_values_sorted, by_Ticker_ReportDate_ok.
  - apply sort_values_sorted, by_Ticker_ReportDate_ok.
  - rewrite !sort_values_perm. apply filter_perm. unfold merge_inner.
    apply flat_map_perm.
    + now apply Permutation_map.
    + intros c. apply Permutation_map, filter_perm. now apply Permutation_map.
  - intros a b Ha Hb E.
    apply (NoDup_map_In_eq (fun b => (Ticker b, ReportDate b)) _ a b Hkeys);
      auto.
    now apply lex_eq_key.
Qed.

(** X12.  When no key occurs twice in an input table, the order of its rows
    does not matter: the scripts sort on the keys, so permuting the rows of
    the cash-flow, income or price table leaves the output as it is.  (With a
    key that occurs twice the stable sorts keep the input order of its
    rows.) *)
Theorem row_order_irrelevant (s : schema) (cf cf' : cf_table)
    (inc inc' : list inc_row) (px px' : list px_row) :
  cf_columns cf = cf_columns cf' ->
  Permutation (cf_rows cf) (cf_rows cf') ->
  Permutation inc inc' ->
  Permutation px px' ->
  NoDup (map cf_key (cf_rows cf)) ->
  NoDup (map inc_key inc) ->
  NoDup (map px_key px) ->
  build s cf inc px = build s cf' inc' px'.
Proof.
  intros Hcols Hcf Hinc Hpx Hncf Hninc Hnpx.
  unfold build, fund_stage, resolve_capex. rewrite <- Hcols.
  destruct (capex_col (cf_columns cf)) as [c | ]; [ | reflexivity].
  destruct (String.eqb c ""); [reflexivity | ].
  unfold fundamentals.
  rewrite (fund_sorted_perm s c _ _ _ _ Hcf Hinc Hncf Hninc).
  unfold final, merged, temp. now rewrite (prices_perm px px' Hpx Hnpx).
Qed.

Lemma row_order_irrelevant_witness :
  build Basic
        {| cf_columns := columns_last; cf_rows := rev (cf_rows sample_cf) |}
        (rev sample_inc) (rev sample_px)
  = Value sample_final.
Proof.
  refine (eq_trans
            (eq_sym (row_order_irrelevant Basic sample_cf
                       {| cf_columns := columns_last;
                          cf_rows := rev (cf_rows sample_cf) |}
                       sample_inc (rev sample_inc) sample_px (rev sample_px)
                       eq_refl (Permutation_rev _) (Permutation_rev _)
                       (Permutation_rev _) _ _ _)) _).
  - vm_compute. repeat constructor; simpl; intuition discriminate.
  - vm_compute. repeat constructor; simpl; intuition discriminate.
  - vm_compute. repeat constructor; simpl; intuition discriminate.
  - vm_compute. reflexivity.
Defined.

(** ** The start-year filter *)

(** X13.  The filter [dt.year >= START_YEAR] is a threshold on the date:
    it keeps exactly the report dates on or after 1 January 2000, so no
    output row is dated before that day. *)
Theorem start_year_threshold :
  (forall d : date, START_YEAR <= year_of d <-> start_date <= d) /\
  (forall s cf inc px out r,
      build s cf inc px = Value out -> In r out ->
      start_date <= out_ReportDate r).
Proof.
  assert (Hyear : forall d : date, START_YEAR <= year_of d <-> start_date <= d).
  { intros d. unfold start_date, START_YEAR, year_of, date in *.
    change (ymd 2000 1 1) with 10957. cbv zeta.
    remember (d + 719468) as z eqn:Ez.
    remember (z / 146097) as era eqn:Eera.
    remember (z - era * 146097) as doe eqn:Edoe.
    assert (Hera : 146097 * era <= z < 146097 * era + 146097)
      by (subst era; Z.div_mod_to_equations; lia).
    assert (Hdoe : 0 <= doe < 146097) by lia.
    remember ((doe - doe / 1460 + doe / 36524 - doe / 146096) / 365)
      as yoe eqn:Eyoe.
    assert (Hyoe : 0 <= yoe <= 399)
      by (subst yoe; Z.div_mod_to_equations; lia).
    remember (doe - (365 * yoe + yoe / 4 - yoe / 100)) as doy eqn:Edoy.
    remember ((5 * doy + 2) / 153) as mp eqn:Emp.
    destruct (Z_lt_le_dec era 4) as [H3 | H4].
    - destruct (mp <? 10); destruct (_ <=? 2); lia.
    - destruct (Z_lt_le_dec 4 era) as [H5 | H4'].
      + destruct (mp <? 10); destruct (_ <=? 2); lia.
      + assert (E : era = 4) by lia.
        assert (Hd : d = doe - 135080) by lia.
        rewrite E. clear Hera Eera H4 H4' Edoe Ez E. subst d.
        destruct (Z.ltb_spec mp 10);
          match goal with
          | |- context [?a <=? 2] => destruct (Z.leb_spec a 2)
          end;
          subst mp doy yoe; Z.div_mod_to_equations; lia. }
  split; [exact Hyear | ].
  intros s cf inc px out r. unfold build, fund_stage.
  destruct (resolve_capex cf) as [c | | e]; try discriminate.
  intros [= <-] Hr. apply in_final_of in Hr.
  destruct Hr as (m & Hm & Hpart & _).
  apply in_merged in Hm. destruct Hm as (Hf & _).
  apply in_fundamentals in Hf.
  destruct Hf as (cr & ir & _ & _ & _ & _ & Hy & Hb).
  unfold fund_part, fund_part_of in Hpart. injection Hpart as _ HrR _ _ _.
  rewrite HrR, Hb. simpl. now apply Hyear.
Qed.

Lemma start_year_threshold_witness :
  exists r, nth_error sample_final 0 = Some r /\ 10957 <= out_ReportDate r.
Proof.
  row_at.
  match goal with
  | |- _ <= out_ReportDate ?r =>
      apply (proj2 start_year_threshold Basic sample_cf sample_inc sample_px
               sample_final r)
  end.
  - vm_compute. reflexivity.
  - in_at 0%nat.
Defined.

(** ** Nulls of the computed columns *)

Lemma iter_pos_inv {A} (P : A -> Prop) (f : A -> A) :
  (forall x, P x -> P (f x)) -> forall n x, P x -> P (iter_pos f n x).
Proof.
  intros Hf. induction n as [n IH | n IH | ]; simpl; intros x Hx; auto.
Qed.

Lemma shr_1_nonneg mrs : 0 <= shr_m mrs -> 0 <= shr_m (shr_1 mrs).
Proof.
  destruct mrs as [m r s]. simpl.
  destruct m as [ | [p | p | ] | p]; simpl; lia.
Qed.

Lemma shr_fexp_nonneg m e l :
  0 <= m -> 0 <= shr_m (fst (shr_fexp F64.prec F64.emax m e l)).
Proof.
  intros Hm. unfold shr_fexp, shr.
  assert (H0 : 0 <= shr_m (shr_record_of_loc m l))
    by (destruct l as [ | [ | | ]]; exact Hm).
  destruct (_ - e) as [ | p | p]; simpl; auto.
  now apply (iter_pos_inv (fun r => 0 <= shr_m r) shr_1 shr_1_nonneg).
Qed.

Lemma binary_round_aux_not_nan sx mx ex lx :
  0 <= mx -> F64.isna (binary_round_aux F64.prec F64.emax sx mx ex lx) = false.
Proof.
  intros Hm. unfold binary_round_aux.
  pose proof (shr_fexp_nonneg mx ex lx Hm) as H1.
  destruct (shr_fexp F64.prec F64.emax mx ex lx) as [mrs' e'].
  simpl in H1.
  assert (H2 : 0 <= round_nearest_even (shr_m mrs') (loc_of_shr_record mrs')).
  { unfold round_nearest_even.
    destruct (loc_of_shr_record mrs') as [ | [ | | ]];
      try destruct (Z.even _); lia. }
  pose proof (shr_fexp_nonneg _ e' loc_Exact H2) as H3.
  destruct (shr_fexp F64.prec F64.emax _ e' loc_Exact) as [mrs'' e''].
  simpl in H3. destruct (shr_m mrs'') as [ | p | p]; try reflexivity.
  - now destruct (e'' <=? _).
  - lia.
Qed.

Lemma binary_normalize_not_nan m e sz :
  F64.isna (binary_normalize F64.prec F64.emax m e sz) = false.
Proof.
  unfold binary_normalize, binary_round.
  destruct m as [ | p | p]; try reflexivity;
    destruct (shl_align _ _ _) as [mz ez];
    apply binary_round_aux_not_nan; lia.
Qed.

Lemma sub_finite_not_nan x y :
  is_finite x = true -> is_finite y = true -> F64.isna (F64.sub x y) = false.
Proof.
  destruct x as [sx | | | sx mx ex], y as [sy | | | sy my ey];
    try discriminate; intros _ _; unfold F64.sub; simpl.
  - now destruct sx, sy.
  - reflexivity.
  - reflexivity.
  - apply binary_normalize_not_nan.
Qed.

Lemma add_finite_not_nan x y :
  is_finite x = true -> is_finite y = true -> F64.isna (F64.add x y) = false.
Proof.
  destruct x as [sx | | | sx mx ex], y as [sy | | | sy my ey];
    try discriminate; intros _ _; unfold F64.add; simpl.
  - now destruct sx, sy.
  - reflexivity.
  - reflexivity.
  - apply binary_normalize_not_nan.
Qed.

Lemma mul_finite_not_nan x y :
  is_finite x = true -> is_finite y = true -> F64.isna (F64.mul x y) = false.
Proof.
  destruct x as [sx | | | sx mx ex], y as [sy | | | sy my ey];
    try discriminate; intros _ _; unfold F64.mul; simpl; try reflexivity.
  apply binary_round_aux_not_nan. lia.
Qed.

(** A quotient is null only for a null operand, for 0/0 and for inf/inf. *)
Lemma div_by_finite_not_nan x y :
  F64.isna x = false -> is_finite y = true -> F64.is_zero y = false ->
  F64.isna (F64.div x y) = false.
Proof.
  destruct x as [sx | sx | | sx mx ex], y as [sy | | | sy my ey];
    try discriminate; intros _ _ _; unfold F64.div; simpl; try reflexivity.
  unfold SFdiv_core_binary.
  match goal with
  | |- context [Z.div_eucl ?a ?b] =>
      pose proof (Z.div_pos a b) as Hq;
      change (a / b) with (fst (Z.div_eucl a b)) in Hq;
      destruct (Z.div_eucl a b) as [q r]
  end.
  apply binary_round_aux_not_nan. simpl in Hq. apply Hq; [ | lia].
  match goal with
  | |- 0 <= match ?s with _ => _ end => destruct s
  end; try lia.
  apply Z.shiftl_nonneg. lia.
Qed.

Lemma growth_finite_not_nan x lag :
  is_finite x = true -> is_finite lag = true -> F64.is_zero lag = false ->
  F64.isna (growth x lag) = false.
Proof.
  intros Hx Hl Hz. unfold growth.
  apply div_by_finite_not_nan; auto. now apply sub_finite_not_nan.
Qed.

Lemma trailing_growth_null_iff vals t L :
  (t < List.length vals)%nat ->
  (forall v, In v vals -> usable v = true) ->
  (F64.isna (trailing_growth vals t L) = true <-> (t < L)%nat).
Proof.
  intros Ht Hvals. split.
  - intros Hna. destruct (Nat.ltb_spec t L) as [Hlt | Hge]; [exact Hlt | ].
    exfalso. unfold trailing_growth, lag_value in Hna.
    replace (t <? L)%nat with false in Hna
      by (symmetry; apply Nat.ltb_ge; exact Hge).
    assert (H1 : usable (nth t vals F64.nan) = true)
      by (apply Hvals, nth_In; lia).
    assert (H2 : usable (nth (t - L) vals F64.nan) = true)
      by (apply Hvals, nth_In; lia).
    unfold usable in H1, H2. apply andb_true_iff in H1, H2.
    rewrite growth_finite_not_nan in Hna; try tauto; try discriminate.
    now destruct (F64.is_zero (nth (t - L) vals F64.nan)).
  - intros Hlt. now rewrite trailing_growth_short.
Qed.

(** X14.  When the values of a ticker are finite and not zero, a growth
    over [L] is null for the first [L] rows of the ticker and for no other
    row: this holds of the FCF-per-share growths over the ticker's rows of
    [fund] and of the price growths over its rows of the output. *)
Theorem growth_null_only_at_start (s : schema) (capex : string)
    (cf : list cf_row) (inc : list inc_row) (px : list px_row)
    (T : string) (L : nat) :
  In L (lags_of s) ->
  let fund := fundamentals s capex cf inc in
  let periods := ticker_rows (fun f => Ticker (f_base f)) T fund in
  let rows := ticker_rows out_Ticker T (final s fund px) in
  ((forall f, In f periods -> usable (FCF_per_share (f_base f)) = true) ->
   forall t f, nth_error periods t = Some f ->
     exists g, growth_over L (FCFps_growth f) = Some g /\
               (F64.isna g = true <-> (t < L)%nat)) /\
  ((forall r, In r rows -> usable (out_Price r) = true) ->
   forall t r, nth_error rows t = Some r ->
     exists g, growth_over L (out_Price_growth r) = Some g /\
               (F64.isna g = true <-> (t < L)%nat)).
Proof.
  intros HL fund periods rows. split.
  - intros Hvals t f Ht. eexists. split.
    + apply (fcfps_growth_trailing s capex cf inc T t f L HL Ht).
    + apply trailing_growth_null_iff.
      * rewrite length_map. apply nth_error_Some. fold fund periods. congruence.
      * intros v Hv. apply in_map_iff in Hv. destruct Hv as (f' & <- & Hf').
        now apply Hvals.
  - intros Hvals t r Ht. eexists. split.
    + apply (price_growth_trailing_final s fund px T t r L HL Ht).
    + apply trailing_growth_null_iff.
      * rewrite length_map. apply nth_error_Some. fold rows. congruence.
      * intros v Hv. apply in_map_iff in Hv. destruct Hv as (r' & <- & Hr').
        now apply Hvals.
Qed.

Lemma growth_null_only_at_start_witness :
  exists r, nth_error (ticker_rows out_Ticker "AAA" sample_final) 4 = Some r /\
            exists g, growth_over 4 (out_Price_growth r) = Some g /\
                      (F64.isna g = true <-> (4 < 4)%nat).
Proof.
  row_at.
  match goal with
  | |- exists g, growth_over _ (out_Price_growth ?r) = _ /\ _ =>
      apply (proj2 (growth_null_only_at_start Basic "Capital Expenditures"
                      (cf_rows sample_cf) sample_inc sample_px "AAA" 4
                      (or_introl eq_refl)))
  end.
  - intros r Hr. vm_compute in Hr.
    repeat (destruct Hr as [<- | Hr]; [reflexivity | ]). destruct Hr.
  - vm_compute. reflexivity.
Defined.

(** X15.  The computed columns are not null for finite inputs: in every
    output row, FCF is not null when the operating cash flow and the CapEx
    cell of its cash-flow row are finite, FCF_per_share is not null when
    moreover the Shares (Basic) of its income row are finite and not zero,
    and Market_Cap is not null when those shares and the aligned price are
    finite. *)
Theorem computed_columns_not_null (s : schema) (cf : cf_table)
    (inc : list inc_row) (px : list px_row) (out : list final_row)
    (r : final_row) :
  build s cf inc px = Value out ->
  In r out ->
  exists capex cr ir,
    resolve_capex cf = Value capex /\
    In cr (cf_rows cf) /\ In ir inc /\
    cf_key cr = out_key r /\ inc_key ir = out_key r /\
    (is_finite (cf_OCF cr) = true ->
     is_finite (cell capex (cf_cells cr)) = true ->
     F64.isna (out_FCF r) = false /\
     (usable (inc_Shares ir) = true ->
      F64.isna (out_FCF_per_share r) = false)) /\
    (is_finite (inc_Shares ir) = true -> is_finite (out_Price r) = true ->
     F64.isna (out_Market_Cap r) = false).
Proof.
  unfold build, fund_stage.
  destruct (resolve_capex cf) as [c | | e]; try discriminate.
  intros [= <-] Hr. apply in_final_of in Hr.
  destruct Hr as (m & Hm & Hpart & _ & HP & HM).
  apply in_merged in Hm. destruct Hm as (Hf & _).
  apply in_fundamentals in Hf.
  destruct Hf as (cr & ir & Hcr & Hir & HT & HR & _ & Hb).
  unfold fund_part, fund_part_of in Hpart.
  injection Hpart as HrT HrR HrF HrS _.
  rewrite Hb in HrT, HrR, HrF, HrS, HM. simpl in *.
  exists c, cr, ir. unfold cf_key, inc_key, out_key.
  rewrite HrT, HrR, HrF, HrS, HM, HP, <- HT, <- HR.
  repeat split; auto.
  - now apply add_finite_not_nan.
  - intros Hs. unfold usable in Hs. apply andb_true_iff in Hs.
    destruct Hs as [Hfin Hnz].
    apply div_by_finite_not_nan; auto.
    + now apply add_finite_not_nan.
    + now destruct (F64.is_zero (inc_Shares ir)).
  - intros Hs Hp. now apply mul_finite_not_nan.
Qed.

Lemma computed_columns_not_null_witness :
  exists r, nth_error sample_final 2 = Some r /\
            exists capex cr ir,
              resolve_capex sample_cf = Value capex /\
              In cr (cf_rows sample_cf) /\ In ir sample_inc /\
              cf_key cr = out_key r /\ inc_key ir = out_key r /\
              (is_finite (cf_OCF cr) = true ->
               is_finite (cell capex (cf_cells cr)) = true ->
               F64.isna (out_FCF r) = false /\
               (usable (inc_Shares ir) = true ->
                F64.isna (out_FCF_per_share r) = false)) /\
              (is_finite (inc_Shares ir) = true ->
               is_finite (out_Price r) = true ->
               F64.isna (out_Market_Cap r) = false).
Proof.
  row_at.
  match goal with
  | |- exists capex cr ir, _ /\ _ /\ _ /\ _ = out_key ?r /\ _ =>
      apply (computed_columns_not_null Basic sample_cf sample_inc sample_px
               sample_final r)
  end.
  - vm_compute. reflexivity.
  - in_at 2%nat.
Defined.

(** ** Tickers are processed independently *)

Lemma filter_filter_comm {A} (p q : A -> bool) l :
  filter p (filter q l) = filter q (filter p l).
Proof.
  induction l as [ | a l IH]; simpl; auto.
  destruct (p a) eqn:Ep, (q a) eqn:Eq; simpl; rewrite ?Ep, ?Eq, IH; auto.
Qed.

Lemma filter_implied {A} (p q : A -> bool) l :
  (forall a, In a l -> p a = true -> q a = true) ->
  filter p (filter q l) = filter p l.
Proof.
  induction l as [ | a l IH]; simpl; intros H; auto.
  destruct (q a) eqn:Eq; simpl.
  - rewrite IH; auto.
  - destruct (p a) eqn:Ep.
    + rewrite (H a) in Eq; auto. discriminate.
    + apply IH. auto.
Qed.

Lemma filter_all {A} (p : A -> bool) l :
  (forall a, In a l -> p a = true) -> filter p l = l.
Proof.
  intros H. apply forallb_filter_id, forallb_forall, H.
Qed.

Lemma filter_none {A} (p : A -> bool) l :
  (forall a, In a l -> p a = false) -> filter p l = [].
Proof.
  induction l as [ | a l IH]; simpl; intros H; auto.
  rewrite (H a) by now left. apply IH. auto.
Qed.

Lemma insert_row_filter {A} (cmp : A -> A -> comparison) (Hok : cmp_ok cmp)
    (p : A -> bool) x l :
  StronglySorted (sorts_before cmp) l ->
  filter p (insert_row cmp x l)
  = if p x then insert_row cmp x (filter p l) else filter p l.
Proof.
  induction 1 as [ | y l Hl IH Hy]; simpl.
  - now destruct (p x).
  - destruct (leb_of (cmp x y)) eqn:Exy; simpl.
    + destruct (p x) eqn:Epx; [ | reflexivity].
      destruct (p y) eqn:Epy; simpl; [now rewrite Exy | ].
      destruct (filter p l) as [ | z zs] eqn:Ef; [reflexivity | ].
      simpl. enough (leb_of (cmp x z) = true) as -> by reflexivity.
      assert (Hz : In z l).
      { assert (Hin : In z (filter p l)) by (rewrite Ef; now left).
        now apply filter_In in Hin. }
      rewrite Forall_forall in Hy.
      exact (sorts_before_trans cmp Hok x y z Exy (Hy z Hz)).
    + rewrite IH. destruct (p y) eqn:Epy, (p x) eqn:Epx; simpl;
        rewrite ?Exy; reflexivity.
Qed.

(** Selecting rows commutes with a stable sort. *)
Lemma sort_values_filter {A} (cmp : A -> A -> comparison) (Hok : cmp_ok cmp)
    (p : A -> bool) l :
  filter p (sort_values cmp l) = sort_values cmp (filter p l).
Proof.
  induction l as [ | x l IH]; simpl; [reflexivity | ].
  fold (sort_values cmp l).
  rewrite insert_row_filter by (auto using sort_values_sorted).
  rewrite IH. now destruct (p x).
Qed.

Lemma nodup_filter {A} (dec : forall a b : A, {a = b} + {a <> b})
    (p : A -> bool) l :
  filter p (nodup dec l) = nodup dec (filter p l).
Proof.
  induction l as [ | x l IH]; simpl; [reflexivity | ].
  destruct (p x) eqn:Epx; simpl.
  - destruct (in_dec dec x l) as [Hin | Hnin];
      destruct (in_dec dec x (filter p l)) as [Hin' | Hnin']; simpl;
      rewrite ?Epx, ?IH; try reflexivity.
    + destruct Hnin'. apply filter_In. auto.
    + destruct Hnin. now apply filter_In in Hin'.
  - destruct (in_dec dec x l); simpl; rewrite ?Epx; exact IH.
Qed.

Lemma merge_left_filter_left {A B C} (on : A -> B -> bool)
    (mk : A -> option B -> C) (pa : A -> bool) (pc : C -> bool) l r :
  (forall a ob, pc (mk a ob) = pa a) ->
  filter pc (merge_left on mk l r) = merge_left on mk (filter pa l) r.
Proof.
  intros Hpc. unfold merge_left.
  set (g := fun a => match filter (on a) r with
                     | [] => [mk a None]
                     | ms => map (fun b => mk a (Some b)) ms
                     end).
  assert (Hg : forall a c, In c (g a) -> pc c = pa a).
  { intros a c Hc. unfold g in Hc.
    destruct (filter (on a) r) as [ | b ms].
    - destruct Hc as [<- | []]. apply Hpc.
    - apply in_map_iff in Hc. destruct Hc as (b' & <- & _). apply Hpc. }
  clearbody g.
  induction l as [ | a l IH]; [reflexivity | ].
  cbn [flat_map filter]. rewrite filter_app, IH.
  destruct (pa a) eqn:Epa; cbn [flat_map].
  - f_equal. apply filter_all. intros c Hc. now rewrite (Hg a c Hc).
  - rewrite filter_none; [reflexivity | ]. intros c Hc.
    now rewrite (Hg a c Hc).
Qed.

Lemma merge_left_filter_right {A B C} (on : A -> B -> bool)
    (mk : A -> option B -> C) (pb : B -> bool) l r :
  (forall a b, In a l -> on a b = true -> pb b = true) ->
  merge_left on mk l (filter pb r) = merge_left on mk l r.
Proof.
  intros H. unfold merge_left.
  induction l as [ | a l IH]; [reflexivity | ].
  cbn [flat_map]. rewrite IH by (intros a' b Ha'; apply H; now right).
  rewrite filter_implied; [reflexivity | ].
  intros b _. apply H. now left.
Qed.

Lemma merge_inner_filter {A B C} (on : A -> B -> bool) (mk : A -> B -> C)
    (pa : A -> bool) (pb : B -> bool) (pc : C -> bool) l r :
  (forall a b, pc (mk a b) = pa a) ->
  (forall a b, pa a = true -> on a b = true -> pb b = true) ->
  filter pc (merge_inner on mk l r)
  = merge_inner on mk (filter pa l) (filter pb r).
Proof.
  intros Hpc Hpb. unfold merge_inner.
  induction l as [ | a l IH]; [reflexivity | ].
  cbn [flat_map filter]. rewrite filter_app, IH.
  destruct (pa a) eqn:Epa; cbn [flat_map].
  - f_equal. rewrite filter_all.
    + rewrite filter_implied; [reflexivity | ]. intros b _. now apply Hpb.
    + intros c Hc. apply in_map_iff in Hc. destruct Hc as (b & <- & _).
      now rewrite Hpc.
  - rewrite filter_none; [reflexivity | ]. intros c Hc.
    apply in_map_iff in Hc. destruct Hc as (b & <- & _). now rewrite Hpc.
Qed.

Lemma with_growth_of_ticker {A} (ticker : A -> string) (val : A -> float64)
    lags T : forall rows seen,
  ticker_rows (fun p => ticker (fst p)) T (with_growth ticker val lags seen rows)
  = with_growth ticker val lags (ticker_rows ticker T seen)
      (ticker_rows ticker T rows).
Proof.
  unfold ticker_rows. induction rows as [ | x rows IH]; intros seen; simpl.
  - reflexivity.
  - destruct (String.eqb (ticker x) T) eqn:Ex; simpl.
    + rewrite IH. simpl. rewrite Ex. f_equal. f_equal.
      apply map_ext. intros n. unfold shifted.
      apply String.eqb_eq in Ex. subst T.
      rewrite filter_implied by auto. reflexivity.
    + rewrite IH. simpl. now rewrite Ex.
Qed.

Lemma compare_key_ok : cmp_ok compare_key.
Proof.
  apply (cmp_ok_lex fst String.compare
           (fun a b : string * date => Z.compare (snd a) (snd b))).
  - apply string_cmp_ok.
  - apply (cmp_ok_on snd), Z_cmp_ok.
Qed.

Lemma group_of_ticker T R rows :
  group_of T R (ticker_rows t_Ticker T rows) = group_of T R rows.
Proof.
  unfold group_of, ticker_rows. apply filter_implied.
  intros r _ H. apply same_key_true in H. destruct H as [-> _].
  apply String.eqb_refl.
Qed.

Lemma groupby_first_of_ticker T rows :
  ticker_rows t_Ticker T (groupby_first rows)
  = groupby_first (ticker_rows t_Ticker T rows).
Proof.
  unfold groupby_first, ticker_rows at 1.
  rewrite filter_map_comm. cbn [t_Ticker].
  rewrite (sort_values_filter _ compare_key_ok), nodup_filter.
  rewrite (filter_map_comm (fun r => (t_Ticker r, RptDate r))
             (fun k => String.eqb (fst k) T)).
  cbn [fst]. change (filter (fun a => String.eqb (t_Ticker a) T) rows)
    with (ticker_rows t_Ticker T rows).
  apply map_ext_in. intros [T' R] Hk.
  apply sort_values_In, nodup_In, in_map_iff in Hk.
  destruct Hk as (r & [= <- <-] & Hr).
  unfold ticker_rows in Hr. apply filter_In in Hr. destruct Hr as [_ Hr].
  apply String.eqb_eq in Hr. cbn [fst snd]. rewrite Hr.
  now rewrite group_of_ticker.
Qed.

Lemma candidates_of_ticker T keys px :
  ticker_rows t_Ticker T (candidates keys px)
  = candidates (filter (fun k => String.eqb (fst k) T) keys)
      (ticker_rows px_Ticker T px).
Proof.
  unfold candidates, ticker_rows.
  rewrite (sort_values_filter _ by_Ticker_RptDate_TradeDate_ok).
  rewrite filter_filter_comm.
  rewrite (merge_left_filter_left _ _ (fun k => String.eqb (fst k) T))
    by reflexivity.
  rewrite merge_left_filter_right; [reflexivity | ].
  intros k p Hk Hon. apply filter_In in Hk. destruct Hk as [_ Hk].
  apply String.eqb_eq in Hk, Hon. rewrite <- Hon, Hk. apply String.eqb_refl.
Qed.

Lemma temp_of_ticker T fund px :
  ticker_rows t_Ticker T (temp fund px)
  = temp (ticker_rows (fun f => Ticker (f_base f)) T fund)
      (ticker_rows px_Ticker T px).
Proof.
  unfold temp. rewrite groupby_first_of_ticker, candidates_of_ticker.
  f_equal. f_equal.
  - unfold fund_keyed, ticker_rows. now rewrite filter_map_comm.
  - unfold prices, ticker_rows.
    apply (sort_values_filter _ by_Ticker_TradeDate_ok).
Qed.

Lemma merged_of_ticker T fund px :
  ticker_rows m_Ticker T (merged fund px)
  = merged (ticker_rows (fun f => Ticker (f_base f)) T fund)
      (ticker_rows px_Ticker T px).
Proof.
  unfold merged. rewrite <- temp_of_ticker. unfold ticker_rows.
  rewrite filter_filter_comm.
  rewrite (merge_left_filter_left _ _
             (fun f => String.eqb (Ticker (f_base f)) T)) by reflexivity.
  rewrite merge_left_filter_right; [reflexivity | ].
  intros f t Hf Hon. apply filter_In in Hf. destruct Hf as [_ Hf].
  apply same_key_true in Hon. destruct Hon as [Hon _].
  now rewrite <- Hon.
Qed.

Lemma final_of_ticker s T fund px :
  ticker_rows out_Ticker T (final s fund px)
  = final s (ticker_rows (fun f => Ticker (f_base f)) T fund)
      (ticker_rows px_Ticker T px).
Proof.
  unfold final, metrics. rewrite <- merged_of_ticker.
  pose proof (with_growth_of_ticker m_Ticker Price (lags_of s) T
                (merged fund px) []) as H.
  change (ticker_rows m_Ticker T []) with (@nil merged_row) in H.
  rewrite <- H. unfold ticker_rows. now rewrite !filter_map_comm.
Qed.

Lemma fund_sorted_of_ticker s capex T cf inc :
  ticker_rows Ticker T (fund_sorted s capex cf inc)
  = fund_sorted s capex (ticker_rows cf_Ticker T cf)
      (ticker_rows inc_Ticker T inc).
Proof.
  unfold fund_sorted, ticker_rows.
  rewrite (sort_values_filter _ by_Ticker_ReportDate_ok).
  rewrite filter_filter_comm.
  rewrite (merge_inner_filter _ _ (fun c => String.eqb (c_Ticker c) T)
             (fun i => String.eqb (i_Ticker i) T)).
  - now rewrite !filter_map_comm.
  - reflexivity.
  - intros c i Hc Hon. apply same_key_true in Hon. destruct Hon as [Hon _].
    now rewrite <- Hon.
Qed.

Lemma fundamentals_of_ticker s capex T cf inc :
  ticker_rows (fun f => Ticker (f_base f)) T (fundamentals s capex cf inc)
  = fundamentals s capex (ticker_rows cf_Ticker T cf)
      (ticker_rows inc_Ticker T inc).
Proof.
  unfold fundamentals. rewrite <- fund_sorted_of_ticker.
  pose proof (with_growth_of_ticker Ticker FCF_per_share (lags_of s) T
                (fund_sorted s capex cf inc) []) as H.
  change (ticker_rows Ticker T []) with (@nil fund_base) in H.
  rewrite <- H. unfold ticker_rows. now rewrite filter_map_comm.
Qed.

(** X16.  When [(Ticker, Report Date)] is a key of the cash-flow table and
    of the income table (no key twice), the rows of a ticker in the output
    depend on the rows of that ticker alone: running the script on the three
    tables cut down to one ticker gives the rows the full run has for that
    ticker.  Hence two such runs whose tables agree on a ticker agree on its
    output rows.  (With a key that occurs twice in both tables the order in
    which the inner merge lists its matches can depend on the rows of other
    tickers.) *)
Theorem tickers_independent (s : schema) (T : string) (cf : cf_table)
    (inc : list inc_row) (px : list px_row) (out : list final_row) :
  NoDup (map cf_key (cf_rows cf)) ->
  NoDup (map inc_key inc) ->
  build s cf inc px = Value out ->
  build s (cf_of_ticker T cf) (ticker_rows inc_Ticker T inc)
        (ticker_rows px_Ticker T px)
  = Value (ticker_rows out_Ticker T out) /\
  (forall cf' inc' px' out',
      NoDup (map cf_key (cf_rows cf')) ->
      NoDup (map inc_key inc') ->
      build s cf' inc' px' = Value out' ->
      cf_of_ticker T cf' = cf_of_ticker T cf ->
      ticker_rows inc_Ticker T inc' = ticker_rows inc_Ticker T inc ->
      ticker_rows px_Ticker T px' = ticker_rows px_Ticker T px ->
      ticker_rows out_Ticker T out' = ticker_rows out_Ticker T out).
Proof.
  assert (H : forall cf inc px out,
             build s cf inc px = Value out ->
             build s (cf_of_ticker T cf) (ticker_rows inc_Ticker T inc)
                   (ticker_rows px_Ticker T px)
             = Value (ticker_rows out_Ticker T out)).
  { clear. intros cf inc px out. unfold build, fund_stage, resolve_capex.
    cbn [cf_of_ticker cf_columns cf_rows].
    destruct (capex_col (cf_columns cf)) as [c | ]; [ | discriminate].
    destruct (String.eqb c ""); [discriminate | ].
    intros [= <-]. now rewrite final_of_ticker, fundamentals_of_ticker. }
  intros _ _ Hb. split; [now apply H | ].
  intros cf' inc' px' out' _ _ Hb' Ecf Einc Epx.
  apply H in Hb, Hb'. rewrite Ecf, Einc, Epx in Hb'. congruence.
Qed.

Lemma tickers_independent_witness :
  build Basic (cf_of_ticker "AAA" sample_cf)
        (ticker_rows inc_Ticker "AAA" sample_inc)
        (ticker_rows px_Ticker "AAA" sample_px)
  = Value (ticker_rows out_Ticker "AAA" sample_final).
Proof.
  refine (proj1 (tickers_independent Basic "AAA" sample_cf sample_inc
                   sample_px sample_final _ _ _)).
  - vm_compute. repeat constructor; simpl; intuition discriminate.
  - vm_compute. repeat constructor; simpl; intuition discriminate.
  - vm_compute. reflexivity.
Defined.
